(** * FinalProject_Receiver: the LoRa-to-Bluetooth relay and the rotary-encoder
      paint event

    The repository holds two Arduino sketches.  The relay sketch reads one
    LoRa packet per [loop] turn, cuts it at its first two commas and sends
    the first two pieces over Bluetooth.  The encoder sketch keeps the latest
    encoder reading, select-button state and cursor key in a [PaintEvent]
    object and repaints a character display from them when the event is
    polled.

    Both sketches are embedded as pure functions over explicit state.  What
    the sketches call in the Arduino core ([String], [Print]) is modelled
    after the behaviour of those classes: a [String] is a buffer of
    characters with a length, [indexOf] searches with the C function
    [strchr], which reads the buffer up to its first NUL byte, [println]
    ends the line with CR LF. *)

From Stdlib Require Import List Ascii String ZArith NArith Bool Lia.
Import ListNotations.

Local Open Scope Z_scope.

(** Characters of a sketch-level [String]. *)
Abbreviation Str := (list ascii).

(** Reading a literal of the sketch as a sequence of characters. *)
Abbreviation lit s := (list_ascii_of_string s).

(* ===================================================================== *)
(** ** Arduino [String] and [Print] as the relay sketch uses them          *)
(* ===================================================================== *)

Module WString.

(** The NUL byte, which ends a C string. *)
Definition nul : ascii := Ascii.zero.

(** [strchr]: offset of the first [ch] in the C string that starts at [s].
    The search compares each byte with [ch] and gives up at the first NUL
    byte; the end of the buffer is its terminating NUL. *)
Fixpoint strchr (s : Str) (ch : ascii) : option nat :=
  match s with
  | [] => if Ascii.eqb ch nul then Some O else None
  | c :: rest =>
      if Ascii.eqb c ch then Some O
      else if Ascii.eqb c nul then None
      else match strchr rest ch with
           | Some k => Some (S k)
           | None => None
           end
  end.

(** The part of a buffer that C string functions see: the bytes before the
    first NUL. *)
Fixpoint c_str (s : Str) : Str :=
  match s with
  | [] => []
  | c :: rest => if Ascii.eqb c nul then [] else c :: c_str rest
  end.

(** [String::indexOf(char ch, unsigned int fromIndex)]:
    [-1] when [fromIndex] is not below the length or [strchr] finds no
    [ch]. *)
Definition indexOf (s : Str) (ch : ascii) (fromIndex : Z) : Z :=
  if Z.of_nat (List.length s) <=? fromIndex then -1
  else match strchr (skipn (Z.to_nat fromIndex) s) ch with
       | Some k => fromIndex + Z.of_nat k
       | None => -1
       end.

(** [String::substring(left, right)]: the bounds are swapped when out of
    order, an empty string is answered when [left] is past the end, and
    [right] is clamped to the length. *)
Definition substring (s : Str) (left_ right_ : Z) : Str :=
  let lo := if right_ <? left_ then right_ else left_ in
  let hi := if right_ <? left_ then left_ else right_ in
  let len := Z.of_nat (List.length s) in
  if len <=? lo then []
  else
    let hi := if len <? hi then len else hi in
    firstn (Z.to_nat (hi - lo)) (skipn (Z.to_nat lo) s).

(** [String::substring(beginIndex)] runs to the end of the string. *)
Definition substring_from (s : Str) (beginIndex : Z) : Str :=
  substring s beginIndex (Z.of_nat (List.length s)).

(** [receivedData += c]. *)
Definition concat_char (s : Str) (c : ascii) : Str := s ++ [c].

End WString.

Module WPrint.

(** Decimal digits of a non-negative number, most significant first
    ([Print::printNumber] in base 10). *)
Fixpoint printNumber_aux (fuel : nat) (n : Z) (acc : Str) : Str :=
  match fuel with
  | O => acc
  | S fuel' =>
      let c := ascii_of_nat (Z.to_nat (48 + n mod 10)) in
      let n' := n / 10 in
      if n' =? 0 then c :: acc else printNumber_aux fuel' n' (c :: acc)
  end.

Definition printNumber (n : Z) : Str :=
  printNumber_aux (S (Z.to_nat (Z.log2 n))) n [].

(** [Print::print(int)]: a minus sign for negative values, then the digits. *)
Definition print_int (n : Z) : Str :=
  if n <? 0 then "-"%char :: printNumber (- n) else printNumber n.

(** One call on a [Print] object, as the sketch issues it. *)
Inductive call : Type :=
| Print (s : Str)
| Println (s : Str).

(** The line end [println] appends: carriage return, line feed. *)
Definition line_end : Str := ["013"%char; "010"%char].

(** Bytes one call puts on the wire. *)
Definition call_bytes (c : call) : Str :=
  match c with
  | Print s => s
  | Println s => s ++ line_end
  end.

(** Bytes a sequence of calls puts on the wire, in order. *)
Definition bytes (cs : list call) : Str := flat_map call_bytes cs.

End WPrint.

(* ===================================================================== *)
(** ** The relay sketch                                                    *)
(* ===================================================================== *)

Module Relay.
Import WString WPrint.

(** The input separator of the sketch, [','], and the separator it sends. *)
Definition comma : ascii := ","%char.
Definition semicolon : Str := lit ";".

(** The three strings [data1], [data2], [data3] cut out of a packet. *)
Record ParsedRecord : Type := mkRecord {
  data1 : Str;
  data2 : Str;
  data3 : Str
}.

(** The two output devices: the serial monitor and the Bluetooth link.
    Each holds the calls issued on it so far, oldest first. *)
Record Sinks : Type := mkSinks {
  serial : list call;
  bt : list call
}.

Definition start : Sinks := mkSinks [] [].

(** The [while (LoRa.available())] loop: every byte of the packet is read
    and appended to [receivedData], which starts empty. *)
Definition read_packet (payload : Str) : Str :=
  fold_left concat_char payload [].

(** Locating the two separators and cutting the three pieces
    (the body of [loop] from the two [indexOf] calls to [data3]). *)
Definition parse (receivedData : Str) : option ParsedRecord :=
  let separatorIndex1 := indexOf receivedData comma 0 in
  let separatorIndex2 := indexOf receivedData comma (separatorIndex1 + 1) in
  if negb (separatorIndex1 =? -1) && negb (separatorIndex2 =? -1) then
    Some (mkRecord
            (substring receivedData 0 separatorIndex1)
            (substring receivedData (separatorIndex1 + 1) separatorIndex2)
            (substring_from receivedData (separatorIndex2 + 1)))
  else None.

(** The three [Serial.println] calls. *)
Definition report (r : ParsedRecord) : list call :=
  [ Println (lit "Data 1: " ++ data1 r);
    Println (lit "Data 2: " ++ data2 r);
    Println (lit "Data 3: " ++ data3 r) ].

(** The six calls on [bt]. *)
Definition forward (r : ParsedRecord) : list call :=
  [ Print (data1 r);
    Print semicolon;
    Print (data2 r);
    Print semicolon;
    Print (print_int 0);
    Println semicolon ].

(** One turn of [loop]: [packetSize] is what [LoRa.parsePacket()] answered
    and [payload] the bytes [LoRa.read()] hands out while
    [LoRa.available()]. *)
Definition loop (packetSize : Z) (payload : Str) (w : Sinks) : Sinks :=
  if packetSize =? 0 then w
  else
    let receivedData := read_packet payload in
    match parse receivedData with
    | Some r => mkSinks (serial w ++ report r) (bt w ++ forward r)
    | None => w
    end.

(** A stream of packets, one per turn. *)
Fixpoint run (packets : list (Z * Str)) (w : Sinks) : Sinks :=
  match packets with
  | [] => w
  | (packetSize, payload) :: rest => run rest (loop packetSize payload w)
  end.

(** Number of separators in a frame. *)
Definition separators (frame : Str) : nat :=
  count_occ ascii_dec frame comma.

(** [v] occurs as a contiguous piece of [out]. *)
Fixpoint starts_with (v out : Str) : bool :=
  match v, out with
  | [], _ => true
  | _ :: _, [] => false
  | a :: v', b :: out' => Ascii.eqb a b && starts_with v' out'
  end.

Fixpoint occurs_in (v out : Str) : bool :=
  starts_with v out ||
  match out with
  | [] => false
  | _ :: out' => occurs_in v out'
  end.

(** Every value of the record cut out of [frame] shows up in what one
    turn of [loop] puts on the Bluetooth link. *)
Definition every_field_written (packetSize : Z) (frame : Str) : Prop :=
  forall r, parse frame = Some r ->
    let out := bytes (bt (loop packetSize frame start)) in
    occurs_in (data1 r) out = true /\
    occurs_in (data2 r) out = true /\
    occurs_in (data3 r) out = true.

End Relay.

(* ===================================================================== *)
(** ** The encoder sketch: the paint event                                 *)
(* ===================================================================== *)

Module Paint.

Inductive PaintButtonState : Type := NOT_PRESSED | PRESSED | BUTTON_HELD.

(** The intentions the sketch names. *)
Inductive EncoderUserIntention : Type :=
| CHANGE_VALUE
| SCROLL_THROUGH_ITEMS
| SCROLL_THROUGH_SIDEWAYS.

Definition button_eqb (a b : PaintButtonState) : bool :=
  match a, b with
  | NOT_PRESSED, NOT_PRESSED | PRESSED, PRESSED | BUTTON_HELD, BUTTON_HELD => true
  | _, _ => false
  end.

Definition intent_eqb (a b : EncoderUserIntention) : bool :=
  match a, b with
  | CHANGE_VALUE, CHANGE_VALUE
  | SCROLL_THROUGH_ITEMS, SCROLL_THROUGH_ITEMS
  | SCROLL_THROUGH_SIDEWAYS, SCROLL_THROUGH_SIDEWAYS => true
  | _, _ => false
  end.

(** One call on the display object. *)
Inductive LcdCall : Type :=
| lcd_begin (cols rows : Z)
| lcd_setCursor (col row : Z)
| lcd_print (s : Str).

(** The members of [class PaintEvent], with the trigger flag it inherits
    from its base class. *)
Record PaintEvent : Type := mkPaintEvent {
  selState : PaintButtonState;
  encoderReading : Z;
  cursorKey : Z;
  triggered : bool
}.

(** Modelled from the spec: [BaseEvent::setTriggered], declared in the task
    manager library and not part of the sketch; it writes the trigger flag
    and does nothing else. *)
Definition setTriggered (t : bool) (self : PaintEvent) : PaintEvent :=
  mkPaintEvent (selState self) (encoderReading self) (cursorKey self) t.

(** [PaintEvent::timeOfNextCheck]: [250UL * 1000UL] in 32-bit unsigned
    arithmetic, in microseconds. *)
Definition timeOfNextCheck : N := ((250 * 1000) mod 2 ^ 32)%N.

(** [PaintEvent::currentReading]. *)
Definition currentReading (reading_ : Z) (self : PaintEvent) : PaintEvent :=
  setTriggered true
    (mkPaintEvent (selState self) reading_ (cursorKey self) (triggered self)).

(** [PaintEvent::selectChanged]. *)
Definition selectChanged (state : PaintButtonState) (self : PaintEvent) : PaintEvent :=
  setTriggered true
    (mkPaintEvent state (encoderReading self) (cursorKey self) (triggered self)).

(** [PaintEvent::cursor]. *)
Definition cursor (pin : Z) (self : PaintEvent) : PaintEvent :=
  setTriggered true
    (mkPaintEvent (selState self) (encoderReading self) pin (triggered self)).

(** The three field setters of the event, as data. *)
Inductive Setter : Type :=
| CurrentReading (reading_ : Z)
| SelectChanged (state : PaintButtonState)
| Cursor (pin : Z).

Definition apply_setter (s : Setter) (self : PaintEvent) : PaintEvent :=
  match s with
  | CurrentReading r => currentReading r self
  | SelectChanged st => selectChanged st self
  | Cursor p => cursor p self
  end.

(** The value a field holds after a run of setter calls: the argument of
    the last call that addresses the field, or the prior value when no call
    does. *)
Fixpoint lastReading (calls : list Setter) (prior : Z) : Z :=
  match calls with
  | [] => prior
  | CurrentReading r :: rest => lastReading rest r
  | _ :: rest => lastReading rest prior
  end.

Fixpoint lastSelect (calls : list Setter) (prior : PaintButtonState) : PaintButtonState :=
  match calls with
  | [] => prior
  | SelectChanged st :: rest => lastSelect rest st
  | _ :: rest => lastSelect rest prior
  end.

Fixpoint lastCursor (calls : list Setter) (prior : Z) : Z :=
  match calls with
  | [] => prior
  | Cursor p :: rest => lastCursor rest p
  | _ :: rest => lastCursor rest prior
  end.

(** Modelled from the spec: [nextEligibleTime] and [interval], the
    scheduling state of the gate, which the task manager library (not part
    of the sketch) keeps for a registered event; [interval] holds what
    [timeOfNextCheck] answers.  The other fields are the sketch's own
    globals, [paintEvent] and [intent], and the history of repaints [lcd]:
    the time of the poll and the display calls [exec] made. *)
Record World : Type := mkWorld {
  paintEvent : PaintEvent;
  intent : EncoderUserIntention;
  nextEligibleTime : N;
  interval : N;
  lcd : list (N * list LcdCall)
}.

Definition with_event (f : PaintEvent -> PaintEvent) (w : World) : World :=
  mkWorld (f (paintEvent w)) (intent w) (nextEligibleTime w) (interval w) (lcd w).

(** A setter called on the global [paintEvent]. *)
Definition setField (s : Setter) (w : World) : World :=
  with_event (apply_setter s) w.

(** The [switches.onRelease] handler of [setup]: the select state goes
    back to [NOT_PRESSED] and the intention moves to the next one. *)
Definition selectReleased (w : World) : World :=
  let w1 := with_event (selectChanged NOT_PRESSED) w in
  let intent' :=
    if intent_eqb (intent w1) CHANGE_VALUE then SCROLL_THROUGH_ITEMS
    else if intent_eqb (intent w1) SCROLL_THROUGH_ITEMS then SCROLL_THROUGH_SIDEWAYS
    else CHANGE_VALUE in
  mkWorld (paintEvent w1) intent' (nextEligibleTime w1) (interval w1) (lcd w1).

Section Display.

(** Constants and the number formatter of the input library, which the
    sketch includes and does not define. *)
Variable DF_KEY_LEFT DF_KEY_RIGHT : Z.
Variable ltoaClrBuff : Z -> Z -> ascii -> Z -> Str.

(** [PaintEvent::exec]: the display calls of one repaint. *)
Definition exec (self : PaintEvent) (intent : EncoderUserIntention) : list LcdCall :=
  let intentStr := lit "Chg Val" in
  let intentStr :=
    if intent_eqb intent SCROLL_THROUGH_ITEMS then lit "Scroll" else intentStr in
  let intentStr :=
    if intent_eqb intent SCROLL_THROUGH_SIDEWAYS then lit "ScSide" else intentStr in
  let sz := ltoaClrBuff (encoderReading self) 4 "0"%char 10 in
  let btnState :=
    if button_eqb (selState self) PRESSED then lit "PRESS"
    else if button_eqb (selState self) BUTTON_HELD then lit "HELD "
    else lit "     " in
  let cursorState := lit "     " in
  let cursorState :=
    if cursorKey self =? DF_KEY_LEFT then lit "LEFT " else cursorState in
  let cursorState :=
    if cursorKey self =? DF_KEY_RIGHT then lit "RIGHT" else cursorState in
  [ lcd_begin 16 2;
    lcd_setCursor 0 0;
    lcd_print (lit "encoder: ");
    lcd_print intentStr;
    lcd_setCursor 0 1;
    lcd_print sz;
    lcd_setCursor 12 1;
    lcd_print btnState;
    lcd_setCursor 6 1;
    lcd_print cursorState ].

(** Modelled from the spec: [poll], the step the task manager library
    (not part of the sketch) takes for a registered event.  When the
    event is triggered and the time has come, the event is executed, the
    trigger is cleared and the next eligible time is moved one interval
    past [now]; otherwise nothing happens. *)
Definition poll (now : N) (w : World) : World :=
  if triggered (paintEvent w) && (nextEligibleTime w <=? now)%N then
    mkWorld (setTriggered false (paintEvent w))
            (intent w)
            (now + interval w)%N
            (interval w)
            (lcd w ++ [(now, exec (paintEvent w) (intent w))])
  else w.

(** What can happen after [setup]: a setter call, the select button
    being released, or the task manager polling the event. *)
Inductive Event : Type :=
| Set_ (s : Setter)
| ReleaseSelect
| Poll (now : N).

Definition step (e : Event) (w : World) : World :=
  match e with
  | Set_ s => setField s w
  | ReleaseSelect => selectReleased w
  | Poll now => poll now w
  end.

Fixpoint run (es : list Event) (w : World) : World :=
  match es with
  | [] => w
  | e :: rest => run rest (step e w)
  end.

(** Two polls with setter calls between them add at most one repaint, and
    every repaint they add shows the last value written to each field. *)
Definition coalesced_render_shows_last
    (w : World) (t1 t2 : N) (calls : list Setter) : Prop :=
  let latest :=
    mkPaintEvent (lastSelect calls (selState (paintEvent w)))
                 (lastReading calls (encoderReading (paintEvent w)))
                 (lastCursor calls (cursorKey (paintEvent w)))
                 true in
  exists new,
    lcd (run (Poll t1 :: map Set_ calls ++ [Poll t2]) w) = lcd w ++ new /\
    (List.length new <= 1)%nat /\
    forall t ops, In (t, ops) new -> ops = exec latest (intent w).

End Display.

(** Modelled from the spec: a gate at creation.  Nothing has been painted,
    nothing is pending and no time is excluded yet. *)
Definition create (ev : PaintEvent) (i : EncoderUserIntention) (interval : N) : World :=
  mkWorld (setTriggered false ev) i 0%N interval [].

(** Modelled from the spec: [forceFirstTrigger], which the sketch reaches
    through [paintEvent.markTriggeredAndNotify()] of the task manager
    library; it marks the event as triggered. *)
Definition forceFirstTrigger (w : World) : World :=
  with_event (setTriggered true) w.

(** The global [paintEvent] object before [setup]: its members are
    zero-initialised. *)
Definition paintEvent0 : PaintEvent := mkPaintEvent NOT_PRESSED 0 0 false.

(** The state [setup] leaves: the event is marked for an initial painting
    and registered with the interval it answers. *)
Definition setup : World :=
  forceFirstTrigger (create paintEvent0 CHANGE_VALUE timeOfNextCheck).

(** Times of the repaints recorded so far, oldest first. *)
Definition render_times (w : World) : list N := map fst (lcd w).

(** Every two neighbouring times are at least [d] apart. *)
Fixpoint spaced (d : N) (ts : list N) : Prop :=
  match ts with
  | [] => True
  | t :: rest =>
      match rest with
      | [] => True
      | t' :: _ => (t + d <= t')%N /\ spaced d rest
      end
  end.

(** The invariant behind the spacing of repaints: the recorded times are
    spaced, and the next eligible time is at least one interval past the
    latest of them. *)
Definition gate_inv (w : World) : Prop :=
  spaced (interval w) (render_times w) /\
  forall ts t, render_times w = ts ++ [t] -> (t + interval w <= nextEligibleTime w)%N.

End Paint.

(* ===================================================================== *)
(** ** The relay sketch: [setup] and the whole program                     *)
(* ===================================================================== *)

Module RelaySetup.
Import WPrint Relay.

(** The [while (!LoRa.begin(915E6))] loop of [setup]: [begins] holds the
    answers of the successive [LoRa.begin] calls.  Each failed call prints a
    dot line on the serial monitor and waits 500 ms; [waited] adds the
    delays up.  [None] when the answers run out before one is a success. *)
Fixpoint await_radio (begins : list bool) (w : Sinks) (waited : Z) : option (Sinks * Z) :=
  match begins with
  | [] => None
  | true :: _ => Some (w, waited)
  | false :: rest =>
      await_radio rest (mkSinks (serial w ++ [Println (lit ".")]) (bt w)) (waited + 500)
  end.

(** [setup] of the relay sketch, with the serial port ready: the banner,
    the wait for the radio, the closing line.  The result holds the two
    output devices and the milliseconds spent in [delay]. *)
Definition setup (begins : list bool) : option (Sinks * Z) :=
  let w := mkSinks (serial start ++ [Println (lit "LoRa Receiver")]) (bt start) in
  match await_radio begins w 0 with
  | Some (w', waited) =>
      Some (mkSinks (serial w' ++ [Println (lit "LoRa Initializing OK!")]) (bt w'), waited)
  | None => None
  end.

(** [setup], then one turn of [loop] per packet. *)
Definition sketch (begins : list bool) (packets : list (Z * Str)) : option Sinks :=
  match setup begins with
  | Some (w, _) => Some (run packets w)
  | None => None
  end.

(** A packet of non-zero size whose bytes hold at least two separators
    before the first NUL byte. *)
Definition accepted (p : Z * Str) : bool :=
  negb (fst p =? 0) && (2 <=? separators (WString.c_str (snd p)))%nat.

(** Number of [println] calls among the calls on a device. *)
Definition lines (cs : list call) : nat :=
  List.length (filter (fun c => match c with Println _ => true | Print _ => false end) cs).

End RelaySetup.

(* ===================================================================== *)
(** ** The encoder sketch: the callbacks registered in [setup]             *)
(* ===================================================================== *)

Module Handlers.
Import Paint.

(** The setter calls that address the same member. *)
Definition same_field (a b : Setter) : bool :=
  match a, b with
  | CurrentReading _, CurrentReading _
  | SelectChanged _, SelectChanged _
  | Cursor _, Cursor _ => true
  | _, _ => false
  end.

(** The encoder callback given to [setupUpDownButtonEncoder]. *)
Definition encoderChanged (reading : Z) (w : World) : World :=
  with_event (currentReading reading) w.

(** The [switches.addSwitch] handler of the select button. *)
Definition selectPressed (held : bool) (w : World) : World :=
  with_event (selectChanged (if held then BUTTON_HELD else PRESSED)) w.

Section Pins.

(** The conversion of an [int] to the pin type [pinid_t] of the input
    library, which the sketch includes and does not define. *)
Variable pinid_of_int : Z -> Z.

(** [MyPassThroughSwitchListener::onPressed]. *)
Definition onPressed (pin : Z) (held : bool) (w : World) : World :=
  with_event (cursor pin) w.

(** [MyPassThroughSwitchListener::onReleased]: the pin is not looked at. *)
Definition onReleased (pin : Z) (held : bool) (w : World) : World :=
  with_event (cursor (pinid_of_int (-1))) w.

(** What the input library can report to the sketch. *)
Inductive Input : Type :=
| EncoderTurned (reading : Z)
| KeyPressed (pin : Z) (held : bool)
| KeyReleased (pin : Z) (held : bool)
| SelectPressed (held : bool)
| SelectLifted.

Definition handle (i : Input) (w : World) : World :=
  match i with
  | EncoderTurned r => encoderChanged r w
  | KeyPressed pin held => onPressed pin held w
  | KeyReleased pin held => onReleased pin held w
  | SelectPressed held => selectPressed held w
  | SelectLifted => selectReleased w
  end.

Definition handle_all (inputs : list Input) (w : World) : World :=
  fold_left (fun w i => handle i w) inputs w.

End Pins.

End Handlers.

(* ===================================================================== *)
(** ** Properties of the relay sketch                                      *)
(* ===================================================================== *)

Import WString WPrint Relay.

Example parse_abc :
  parse (lit "A,B,C") = Some (mkRecord (lit "A") (lit "B") (lit "C")).
Proof. reflexivity. Qed.

Example print_int_samples :
  print_int 0 = lit "0" /\ print_int 1234 = lit "1234" /\ print_int (-57) = lit "-57".
Proof. repeat split; reflexivity. Qed.

Example loop_abc :
  bytes (bt (loop 5 (lit "A,B,C") start)) = lit "A;B;0;" ++ line_end.
Proof. reflexivity. Qed.

Section StringFacts.

Variable ch : ascii.
Hypothesis ch_not_nul : ch <> nul.

Lemma strchr_absent (s : Str) : ~ In ch s -> strchr s ch = None.
Proof.
  induction s as [|c s IH]; simpl; intros Hn.
  - destruct (Ascii.eqb_spec ch nul) as [E|_]; [contradiction|reflexivity].
  - destruct (Ascii.eqb_spec c ch) as [->|Hne].
    + exfalso. apply Hn. now left.
    + destruct (Ascii.eqb c nul); [reflexivity|].
      rewrite IH; [reflexivity|]. intros Hin. apply Hn. now right.
Qed.

Lemma strchr_first (pre post : Str) :
  ~ In ch pre -> ~ In nul pre -> strchr (pre ++ ch :: post) ch = Some (List.length pre).
Proof.
  induction pre as [|c pre IH]; simpl; intros Hn Hz.
  - now rewrite Ascii.eqb_refl.
  - destruct (Ascii.eqb_spec c ch) as [->|Hne].
    + exfalso. apply Hn. now left.
    + destruct (Ascii.eqb_spec c nul) as [->|_].
      * exfalso. apply Hz. now left.
      * rewrite IH; [reflexivity| |]; intros Hin; [apply Hn | apply Hz]; now right.
Qed.

(** A NUL byte in front of the first [ch] hides it from the search. *)
Lemma strchr_blocked (pre post : Str) :
  ~ In ch pre -> strchr (pre ++ nul :: post) ch = None.
Proof.
  induction pre as [|c pre IH]; cbn [strchr app]; intros Hn.
  - destruct (Ascii.eqb_spec nul ch) as [E|_]; [now symmetry in E|].
    now rewrite Ascii.eqb_refl.
  - destruct (Ascii.eqb_spec c ch) as [->|Hne].
    + exfalso. apply Hn. now left.
    + destruct (Ascii.eqb c nul); [reflexivity|].
      rewrite IH; [reflexivity|]. intros Hin. apply Hn. now right.
Qed.

(** What a successful search tells about the buffer. *)
Lemma strchr_found (s : Str) (k : nat) :
  strchr s ch = Some k ->
  exists pre post,
    s = pre ++ ch :: post /\ List.length pre = k /\ ~ In ch pre /\ ~ In nul pre.
Proof.
  revert k. induction s as [|c s IH]; simpl; intros k H.
  - destruct (Ascii.eqb_spec ch nul) as [E|_]; [contradiction|discriminate H].
  - destruct (Ascii.eqb_spec c ch) as [->|Hne].
    + injection H as <-. exists [], s. repeat split; intros [].
    + destruct (Ascii.eqb_spec c nul) as [_|Hnz]; [discriminate H|].
      destruct (strchr s ch) as [k'|]; [|discriminate H].
      injection H as <-.
      destruct (IH k' eq_refl) as (pre & post & -> & Hl & Hn & Hz).
      exists (c :: pre), post. simpl. repeat split; [now rewrite Hl | |].
      * intros [E|E]; [now apply Hne | now apply Hn].
      * intros [E|E]; [now apply Hnz | now apply Hz].
Qed.

Lemma skipn_past (pre rest : Str) (n : Z) :
  n = Z.of_nat (List.length pre) -> skipn (Z.to_nat n) (pre ++ rest) = rest.
Proof.
  intros ->. rewrite Nat2Z.id, skipn_app, skipn_all, Nat.sub_diag. reflexivity.
Qed.

(** [indexOf] from a position that starts a stretch free of [ch] and of NUL
    followed by [ch] answers the position of that [ch]. *)
Lemma indexOf_found (pre mid post : Str) (from : Z) :
  from = Z.of_nat (List.length pre) ->
  ~ In ch mid -> ~ In nul mid ->
  indexOf (pre ++ mid ++ ch :: post) ch from = from + Z.of_nat (List.length mid).
Proof.
  intros Hfrom Hmid Hz. unfold indexOf.
  rewrite (skipn_past pre _ from Hfrom), strchr_first by assumption.
  destruct (Z.leb_spec (Z.of_nat (List.length (pre ++ mid ++ ch :: post))) from) as [Hle|_];
    [|reflexivity].
  rewrite !length_app in Hle. simpl in Hle. lia.
Qed.

(** [indexOf] answers [-1] when no [ch] is left from the start position. *)
Lemma indexOf_missing (pre rest : Str) (from : Z) :
  from = Z.of_nat (List.length pre) ->
  ~ In ch rest ->
  indexOf (pre ++ rest) ch from = -1.
Proof.
  intros Hfrom Hrest. unfold indexOf.
  rewrite (skipn_past pre _ from Hfrom), strchr_absent by assumption.
  now destruct (_ <=? _).
Qed.

(** [indexOf] answers [-1] when a NUL byte comes before the next [ch]. *)
Lemma indexOf_blocked (pre mid post : Str) (from : Z) :
  from = Z.of_nat (List.length pre) ->
  ~ In ch mid ->
  indexOf (pre ++ mid ++ nul :: post) ch from = -1.
Proof.
  intros Hfrom Hmid. unfold indexOf.
  rewrite (skipn_past pre _ from Hfrom), strchr_blocked by assumption.
  now destruct (_ <=? _).
Qed.

(** What an answer other than [-1] tells about the buffer. *)
Lemma indexOf_answer (s : Str) (from : Z) :
  0 <= from ->
  indexOf s ch from <> -1 ->
  exists mid post,
    skipn (Z.to_nat from) s = mid ++ ch :: post /\
    indexOf s ch from = from + Z.of_nat (List.length mid) /\
    ~ In ch mid /\ ~ In nul mid.
Proof.
  intros Hfrom. unfold indexOf.
  destruct (Z.of_nat (List.length s) <=? from); [intros H; now contradiction H|].
  destruct (strchr (skipn (Z.to_nat from) s) ch) as [k|] eqn:Hk;
    [|intros H; now contradiction H].
  intros _. destruct (strchr_found _ k Hk) as (mid & post & E & Hl & Hn & Hz).
  exists mid, post. rewrite Hl. now repeat split.
Qed.

(** An answer is [-1] or a position from the start index on. *)
Lemma indexOf_range (s : Str) (from : Z) :
  indexOf s ch from = -1 \/ from <= indexOf s ch from.
Proof.
  unfold indexOf. destruct (_ <=? _); [now left|].
  destruct (strchr _ ch); [right; lia | now left].
Qed.

(** [substring] between two positions inside the string is the stretch
    they enclose. *)
Lemma substring_stretch (pre mid post : Str) (lo hi : Z) :
  lo = Z.of_nat (List.length pre) ->
  hi = lo + Z.of_nat (List.length mid) ->
  substring (pre ++ mid ++ post) lo hi = mid.
Proof.
  intros Hlo Hhi. unfold substring.
  assert (Hlen : Z.of_nat (List.length (pre ++ mid ++ post))
                 = lo + Z.of_nat (List.length mid) + Z.of_nat (List.length post))
    by (rewrite !length_app; lia).
  rewrite Hlen.
  destruct (Z.ltb_spec hi lo) as [Hlt|_]; [lia|].
  destruct (Z.leb_spec (lo + Z.of_nat (List.length mid) + Z.of_nat (List.length post)) lo)
    as [Hle|Hgt].
  - destruct mid; [reflexivity | simpl in Hle; lia].
  - destruct (Z.ltb_spec (lo + Z.of_nat (List.length mid) + Z.of_nat (List.length post)) hi)
      as [Hlt|_]; [lia|].
    rewrite (skipn_past pre _ lo Hlo).
    replace (Z.to_nat (hi - lo)) with (List.length mid) by lia.
    rewrite firstn_app, Nat.sub_diag, firstn_all. simpl. apply app_nil_r.
Qed.

Lemma substring_from_tail (pre post : Str) (lo : Z) :
  lo = Z.of_nat (List.length pre) ->
  substring_from (pre ++ post) lo = post.
Proof.
  intros Hlo. unfold substring_from.
  replace (pre ++ post) with (pre ++ post ++ []) by (now rewrite app_nil_r).
  apply substring_stretch; [assumption|].
  rewrite !length_app. simpl. lia.
Qed.

End StringFacts.

Lemma read_packet_all (payload : Str) : read_packet payload = payload.
Proof.
  unfold read_packet.
  enough (H : forall acc, fold_left concat_char payload acc = acc ++ payload) by apply H.
  induction payload as [|c p IH]; intros acc; simpl.
  - now rewrite app_nil_r.
  - rewrite IH. unfold concat_char. now rewrite <- app_assoc.
Qed.

(** A frame either holds no separator, or splits at its first one. *)
Lemma first_separator (frame : Str) :
  (~ In comma frame /\ separators frame = O) \/
  (exists d1 rest, frame = d1 ++ comma :: rest /\ ~ In comma d1 /\
                   separators frame = S (separators rest)).
Proof.
  unfold separators.
  induction frame as [|c s IH].
  - left. split; [intros [] | reflexivity].
  - simpl. destruct (ascii_dec c comma) as [->|Hne].
    + right. exists [], s. repeat split. intros [].
    + destruct IH as [[Hn H0]|(d1 & rest & -> & Hn & Hc)].
      * left. split; [|assumption]. intros [H|H]; [now apply Hne | now apply Hn].
      * right. exists (c :: d1), rest. repeat split; [|assumption].
        intros [H|H]; [now apply Hne | now apply Hn].
Qed.

(** A frame with two separators or more splits at its first two. *)
Lemma two_separators (frame : Str) :
  (2 <= separators frame)%nat ->
  exists d1 d2 d3,
    frame = d1 ++ comma :: d2 ++ comma :: d3 /\
    ~ In comma d1 /\ ~ In comma d2 /\
    separators frame = S (S (separators d3)).
Proof.
  intros H.
  destruct (first_separator frame) as [[_ H0]|(d1 & rest & -> & Hn1 & Hc1)]; [lia|].
  destruct (first_separator rest) as [[_ H0]|(d2 & d3 & -> & Hn2 & Hc2)]; [lia|].
  exists d1, d2, d3. repeat split; try assumption. lia.
Qed.

Lemma comma_not_nul : comma <> nul.
Proof. discriminate. Qed.

Lemma separators_app (a b : Str) :
  separators (a ++ b) = (separators a + separators b)%nat.
Proof. apply count_occ_app. Qed.

Lemma separators_none (a : Str) : ~ In comma a -> separators a = O.
Proof. intros H. now apply count_occ_not_In. Qed.

Lemma separators_cons_comma (a : Str) : separators (comma :: a) = S (separators a).
Proof. reflexivity. Qed.

(** The two [indexOf] calls and the three [substring] calls recover the
    pieces around the first two separators, when no NUL byte comes before
    the second separator. *)
Lemma parse_pieces (d1 d2 d3 : Str) :
  ~ In comma d1 -> ~ In nul d1 -> ~ In comma d2 -> ~ In nul d2 ->
  parse (d1 ++ comma :: d2 ++ comma :: d3) = Some (mkRecord d1 d2 d3).
Proof.
  intros Hn1 Hz1 Hn2 Hz2. unfold parse.
  set (frame := d1 ++ comma :: d2 ++ comma :: d3).
  assert (H1 : indexOf frame comma 0 = Z.of_nat (List.length d1)).
  { apply (indexOf_found comma [] d1 (d2 ++ comma :: d3) 0); [reflexivity|assumption..]. }
  assert (H2 : indexOf frame comma (Z.of_nat (List.length d1) + 1)
               = Z.of_nat (List.length d1) + 1 + Z.of_nat (List.length d2)).
  { unfold frame.
    replace (d1 ++ comma :: d2 ++ comma :: d3)
      with ((d1 ++ [comma]) ++ d2 ++ comma :: d3) by (now rewrite <- app_assoc).
    apply indexOf_found; [rewrite length_app; simpl; lia | assumption..]. }
  rewrite H1, H2.
  destruct (Z.eqb_spec (Z.of_nat (List.length d1)) (-1)) as [E|_]; [lia|].
  destruct (Z.eqb_spec (Z.of_nat (List.length d1) + 1 + Z.of_nat (List.length d2)) (-1))
    as [E|_]; [lia|].
  simpl. f_equal. f_equal.
  - apply (substring_stretch [] d1 (comma :: d2 ++ comma :: d3)); simpl; lia.
  - unfold frame.
    replace (d1 ++ comma :: d2 ++ comma :: d3)
      with ((d1 ++ [comma]) ++ d2 ++ comma :: d3) by (now rewrite <- app_assoc).
    apply substring_stretch; [rewrite length_app; simpl; lia | lia].
  - unfold frame.
    replace (d1 ++ comma :: d2 ++ comma :: d3)
      with ((d1 ++ comma :: d2 ++ [comma]) ++ d3)
      by (rewrite <- app_assoc; simpl; now rewrite <- app_assoc).
    apply substring_from_tail.
    rewrite length_app. simpl. rewrite length_app. simpl. lia.
Qed.

(** A frame that parses is cut at two separators with no separator and no
    NUL byte before the second one. *)
Lemma parse_cut (frame : Str) (r : ParsedRecord) :
  parse frame = Some r ->
  exists d1 d2 d3,
    frame = d1 ++ comma :: d2 ++ comma :: d3 /\
    ~ In comma d1 /\ ~ In nul d1 /\ ~ In comma d2 /\ ~ In nul d2 /\
    r = mkRecord d1 d2 d3.
Proof.
  intros H. pose proof H as H'. unfold parse in H'.
  destruct (Z.eqb_spec (indexOf frame comma 0) (-1)) as [E1|E1]; [discriminate H'|].
  destruct (Z.eqb_spec (indexOf frame comma (indexOf frame comma 0 + 1)) (-1)) as [E2|E2];
    [discriminate H'|].
  clear H'.
  destruct (indexOf_answer comma comma_not_nul frame 0 (Z.le_refl 0) E1)
    as (d1 & rest & Ef & Ei & Hn1 & Hz1).
  simpl in Ef, Ei. subst frame. rewrite Ei in E2.
  destruct (indexOf_answer comma comma_not_nul (d1 ++ comma :: rest)
              (Z.of_nat (List.length d1) + 1) ltac:(lia) E2)
    as (d2 & d3 & Er & _ & Hn2 & Hz2).
  replace (d1 ++ comma :: rest) with ((d1 ++ [comma]) ++ rest) in Er
    by (now rewrite <- app_assoc).
  rewrite skipn_past in Er by (rewrite length_app; simpl; lia).
  subst rest. exists d1, d2, d3.
  rewrite (parse_pieces d1 d2 d3 Hn1 Hz1 Hn2 Hz2) in H. injection H as <-.
  now repeat split.
Qed.

Lemma parse_needs_two (frame : Str) (r : ParsedRecord) :
  parse frame = Some r -> (2 <= separators frame)%nat.
Proof.
  intros H. destruct (parse_cut frame r H) as (d1 & d2 & d3 & -> & _).
  rewrite separators_app, separators_cons_comma, separators_app, separators_cons_comma.
  lia.
Qed.

(** With fewer than two separators one of the two searches answers [-1]. *)
Lemma parse_malformed (frame : Str) :
  (separators frame < 2)%nat -> parse frame = None.
Proof.
  intros H. destruct (parse frame) as [r|] eqn:Hp; [|reflexivity].
  pose proof (parse_needs_two frame r Hp). lia.
Qed.

Lemma parse_fields (frame : Str) (r : ParsedRecord) :
  parse frame = Some r ->
  frame = data1 r ++ comma :: data2 r ++ comma :: data3 r /\
  ~ In comma (data1 r) /\ ~ In comma (data2 r).
Proof.
  intros H. destruct (parse_cut frame r H) as (d1 & d2 & d3 & -> & Hn1 & _ & Hn2 & _ & ->).
  simpl. now repeat split.
Qed.

Lemma c_str_nul_free (s : Str) : ~ In nul (c_str s).
Proof.
  induction s as [|c s IH]; simpl; [intros []|].
  destruct (Ascii.eqb_spec c nul) as [_|Hne]; [intros []|].
  intros [E|E]; [now apply Hne | now apply IH].
Qed.

Lemma c_str_rest (s : Str) : exists rest, s = c_str s ++ rest.
Proof.
  induction s as [|c s [rest IH]]; simpl; [now exists []|].
  destruct (Ascii.eqb c nul); [now exists (c :: s)|].
  exists rest. simpl. now rewrite <- IH.
Qed.

Lemma c_str_app (pre post : Str) :
  ~ In nul pre -> c_str (pre ++ post) = pre ++ c_str post.
Proof.
  induction pre as [|c pre IH]; simpl; intros Hz; [reflexivity|].
  destruct (Ascii.eqb_spec c nul) as [->|_].
  - exfalso. apply Hz. now left.
  - rewrite IH; [reflexivity|]. intros Hin. apply Hz. now right.
Qed.

Lemma c_str_whole (s : Str) : ~ In nul s -> c_str s = s.
Proof.
  intros Hz. rewrite <- (app_nil_r s) at 1. rewrite c_str_app by assumption.
  simpl. apply app_nil_r.
Qed.

(** A frame with two separators before its first NUL byte parses, cut at
    those two separators. *)
Lemma parse_visible (frame : Str) :
  (2 <= separators (c_str frame))%nat ->
  exists d1 d2 d3,
    frame = d1 ++ comma :: d2 ++ comma :: d3 /\
    ~ In comma d1 /\ ~ In nul d1 /\ ~ In comma d2 /\ ~ In nul d2 /\
    parse frame = Some (mkRecord d1 d2 d3) /\
    separators frame = S (S (separators d3)).
Proof.
  intros H.
  destruct (two_separators (c_str frame) H) as (d1 & d2 & d3 & Ec & Hn1 & Hn2 & _).
  destruct (c_str_rest frame) as [rest Ef].
  pose proof (c_str_nul_free frame) as Hz. rewrite Ec in Hz.
  assert (Hz1 : ~ In nul d1).
  { intros Hin. apply Hz. apply in_or_app. now left. }
  assert (Hz2 : ~ In nul d2).
  { intros Hin. apply Hz. apply in_or_app. right. right. apply in_or_app. now left. }
  rewrite Ec in Ef. rewrite <- !app_assoc in Ef. simpl in Ef.
  rewrite <- !app_assoc in Ef. simpl in Ef.
  exists d1, d2, (d3 ++ rest). rewrite Ef at 1 2 3.
  split; [reflexivity|]. repeat (split; [assumption|]).
  split; [now apply parse_pieces|].
  rewrite separators_app, separators_cons_comma, separators_app, separators_cons_comma.
  rewrite (separators_none d1 Hn1), (separators_none d2 Hn2). reflexivity.
Qed.

(** A frame parses exactly when two separators come before its first NUL
    byte. *)
Lemma parse_iff_visible (frame : Str) :
  parse frame <> None <-> (2 <= separators (c_str frame))%nat.
Proof.
  split.
  - intros H. destruct (parse frame) as [r|] eqn:Hp; [|now contradiction H].
    destruct (parse_cut frame r Hp) as (d1 & d2 & d3 & -> & _ & Hz1 & _ & Hz2 & _).
    rewrite (c_str_app d1) by assumption.
    replace (comma :: d2 ++ comma :: d3) with ((comma :: d2) ++ comma :: d3) by reflexivity.
    rewrite (c_str_app (comma :: d2)).
    + rewrite separators_app. simpl app. rewrite separators_cons_comma, separators_app.
      simpl. destruct (Ascii.eqb comma nul) eqn:E; [discriminate E|].
      rewrite separators_cons_comma. lia.
    + intros [E|E]; [discriminate E | now apply Hz2].
  - intros H. destruct (parse_visible frame H) as (d1 & d2 & d3 & _ & _ & _ & _ & _ & Hp & _).
    rewrite Hp. discriminate.
Qed.

(** C1, as stated, fails: the frame [A,B,C] parses into the three fields
    [A], [B], [C], and the bytes sent over Bluetooth are [A;B;0;] and a line
    end, in which the third field value [C] does not occur. *)
Lemma C1_third_field_not_written : ~ every_field_written 5 (lit "A,B,C").
Proof.
  intros H.
  specialize (H (mkRecord (lit "A") (lit "B") (lit "C")) eq_refl).
  vm_compute in H. destruct H as (_ & _ & H). discriminate H.
Qed.

(** C1, amended: for every frame that parses into a record, one turn of
    [loop] issues six sends on the Bluetooth link, in this order: the first
    field, [;], the second field, [;], the constant [0] where the third
    field would stand, and [;] with the line end.  The bytes on the wire are
    those pieces in sequence, and they are the same whatever the third
    field is. *)
Theorem C1_forward_two_fields (packetSize : Z) (frame : Str) (r : ParsedRecord) (w : Sinks) :
  packetSize <> 0 ->
  parse frame = Some r ->
  bt (loop packetSize frame w)
    = bt w ++ [ Print (data1 r); Print (lit ";"); Print (data2 r); Print (lit ";");
                Print (lit "0"); Println (lit ";") ] /\
  bytes (bt (loop packetSize frame w))
    = bytes (bt w) ++ data1 r ++ lit ";" ++ data2 r ++ lit ";" ++ lit "0" ++ lit ";" ++ line_end /\
  forall d3', forward (mkRecord (data1 r) (data2 r) d3') = forward r.
Proof.
  intros Hp Hr. unfold loop.
  destruct (Z.eqb_spec packetSize 0) as [E|_]; [contradiction|].
  rewrite read_packet_all, Hr. simpl. split; [reflexivity|]. split; [|reflexivity].
  unfold bytes. rewrite flat_map_app. simpl.
  reflexivity.
Qed.

Lemma C1_forward_two_fields_witness :
  bt (loop 5 (lit "A,B,C") start)
    = [ Print (lit "A"); Print (lit ";"); Print (lit "B"); Print (lit ";");
        Print (lit "0"); Println (lit ";") ].
Proof.
  refine (proj1 (C1_forward_two_fields 5 (lit "A,B,C")
                   (mkRecord (lit "A") (lit "B") (lit "C")) start _ _)).
  - lia.
  - reflexivity.
Defined.

(** C2, as stated, fails: the frame [A<NUL>,B,C] holds two commas and is
    received with a non-zero size, yet the first search stops at the NUL
    byte, the frame is dropped and nothing is written to the Bluetooth
    link. *)
Lemma C2_nul_frame_not_forwarded :
  (2 <= separators (lit "A" ++ nul :: lit ",B,C"))%nat /\
  loop 6 (lit "A" ++ nul :: lit ",B,C") start = start /\
  forall d1 d2,
    bytes (bt (loop 6 (lit "A" ++ nul :: lit ",B,C") start))
    <> d1 ++ lit ";" ++ d2 ++ lit ";" ++ lit "0" ++ lit ";" ++ line_end.
Proof.
  split; [vm_compute; lia|]. split; [reflexivity|].
  intros d1 d2. change (bytes (bt (loop 6 (lit "A" ++ nul :: lit ",B,C") start))) with (@nil ascii).
  destruct d1; discriminate.
Qed.

(** C2, amended: for every received frame with at least two commas before
    its first NUL byte, the frame is [d1,d2,d3] with no comma in [d1] and
    [d2], and the bytes written to the Bluetooth link are [d1], [;], [d2],
    [;], [0], [;] and the line end of [println].  The third field goes to
    the serial monitor only: it is in the third report line, and the
    Bluetooth calls are the same for every other third field. *)
Theorem C2_bluetooth_bytes (packetSize : Z) (frame : Str) (w : Sinks) :
  packetSize <> 0 ->
  (2 <= separators (c_str frame))%nat ->
  exists d1 d2 d3,
    frame = d1 ++ comma :: d2 ++ comma :: d3 /\
    ~ In comma d1 /\ ~ In comma d2 /\
    bytes (bt (loop packetSize frame w))
      = bytes (bt w) ++ d1 ++ lit ";" ++ d2 ++ lit ";" ++ lit "0" ++ lit ";" ++ line_end /\
    bytes (serial (loop packetSize frame w))
      = bytes (serial w) ++ (lit "Data 1: " ++ d1 ++ line_end)
                         ++ (lit "Data 2: " ++ d2 ++ line_end)
                         ++ (lit "Data 3: " ++ d3 ++ line_end) /\
    forall d3', bt (loop packetSize (d1 ++ comma :: d2 ++ comma :: d3') w)
                = bt (loop packetSize frame w).
Proof.
  intros Hp H2.
  destruct (parse_visible frame H2) as (d1 & d2 & d3 & -> & Hn1 & Hz1 & Hn2 & Hz2 & _).
  exists d1, d2, d3. split; [reflexivity|]. split; [assumption|]. split; [assumption|].
  assert (Hloop : forall d, loop packetSize (d1 ++ comma :: d2 ++ comma :: d) w
                  = mkSinks (serial w ++ report (mkRecord d1 d2 d))
                            (bt w ++ forward (mkRecord d1 d2 d))).
  { intros d. unfold loop.
    destruct (Z.eqb_spec packetSize 0) as [E|_]; [contradiction|].
    now rewrite read_packet_all, parse_pieces. }
  rewrite Hloop. simpl. unfold bytes. rewrite !flat_map_app. simpl.
  split; [reflexivity|].
  split; [repeat rewrite <- app_assoc; reflexivity|].
  intros d3'. now rewrite Hloop.
Qed.

Lemma C2_bluetooth_bytes_witness :
  exists d1 d2 d3,
    lit "12,7,x,y" = d1 ++ comma :: d2 ++ comma :: d3 /\
    ~ In comma d1 /\ ~ In comma d2 /\
    bytes (bt (loop 8 (lit "12,7,x,y") start))
      = bytes (bt start) ++ d1 ++ lit ";" ++ d2 ++ lit ";" ++ lit "0" ++ lit ";" ++ line_end /\
    bytes (serial (loop 8 (lit "12,7,x,y") start))
      = bytes (serial start) ++ (lit "Data 1: " ++ d1 ++ line_end)
                             ++ (lit "Data 2: " ++ d2 ++ line_end)
                             ++ (lit "Data 3: " ++ d3 ++ line_end) /\
    forall d3', bt (loop 8 (d1 ++ comma :: d2 ++ comma :: d3') start)
                = bt (loop 8 (lit "12,7,x,y") start).
Proof.
  apply (C2_bluetooth_bytes 8 (lit "12,7,x,y") start).
  - lia.
  - vm_compute. lia.
Defined.

Example C2_bytes_sample :
  bytes (bt (loop 8 (lit "12,7,x,y") start)) = lit "12;7;0;" ++ line_end /\
  bytes (serial (loop 8 (lit "12,7,x,y") start))
    = lit "Data 1: 12" ++ line_end ++ lit "Data 2: 7" ++ line_end
      ++ lit "Data 3: x,y" ++ line_end.
Proof. split; reflexivity. Qed.

(** C3: a frame with fewer than two separators does not parse; the turn of
    [loop] that receives it leaves both output devices as they were, so
    nothing of it reaches the Bluetooth link, and the packets that follow
    are handled as if the frame had not arrived. *)
Theorem C3_malformed_dropped (packetSize : Z) (frame : Str) (w : Sinks) :
  (separators frame < 2)%nat ->
  parse frame = None /\
  loop packetSize frame w = w /\
  forall rest, run ((packetSize, frame) :: rest) w = run rest w.
Proof.
  intros H. pose proof (parse_malformed frame H) as Hp.
  assert (Hl : loop packetSize frame w = w).
  { unfold loop. destruct (packetSize =? 0); [reflexivity|].
    now rewrite read_packet_all, Hp. }
  repeat split; try assumption.
  intros rest. simpl. now rewrite Hl.
Qed.

Lemma C3_malformed_dropped_witness :
  parse (lit "A") = None /\
  loop 1 (lit "A") start = start /\
  forall rest, run ((1, lit "A") :: rest) start = run rest start.
Proof.
  apply (C3_malformed_dropped 1 (lit "A") start). vm_compute. lia.
Defined.

Example C3_stream_sample :
  bytes (bt (run [(3, lit "A,B"); (5, lit "A,B,C")] start)) = lit "A;B;0;" ++ line_end.
Proof. reflexivity. Qed.

(** C7, as stated, fails: the frame [A<NUL>,B,C,D] holds three separators
    and does not parse, because the first search stops at the NUL byte. *)
Lemma C7_nul_frame_dropped :
  (2 < separators (lit "A" ++ nul :: lit ",B,C,D"))%nat /\
  parse (lit "A" ++ nul :: lit ",B,C,D") = None.
Proof. split; [vm_compute; lia | reflexivity]. Qed.

(** C7, amended: in every frame with more than two separators, two of them
    before the first NUL byte, the third field takes everything after the
    second separator, the further separators included; [A,B,C,D] parses
    into [A], [B], [C,D]. *)
Theorem C7_greedy_last_field (frame : Str) :
  (2 < separators frame)%nat ->
  (2 <= separators (c_str frame))%nat ->
  (exists d1 d2 d3,
     parse frame = Some (mkRecord d1 d2 d3) /\
     frame = d1 ++ comma :: d2 ++ comma :: d3 /\
     ~ In comma d1 /\ ~ In comma d2 /\
     In comma d3 /\
     separators d3 = (separators frame - 2)%nat) /\
  parse (lit "A,B,C,D") = Some (mkRecord (lit "A") (lit "B") (lit "C,D")).
Proof.
  intros H Hv. split; [|reflexivity].
  destruct (parse_visible frame Hv) as (d1 & d2 & d3 & Ef & Hn1 & _ & Hn2 & _ & Hp & Hc).
  exists d1, d2, d3.
  split; [assumption|]. split; [assumption|].
  split; [assumption|]. split; [assumption|].
  split; [|lia].
  apply (count_occ_In ascii_dec). fold (separators d3). lia.
Qed.

Lemma C7_greedy_last_field_witness :
  parse (lit "A,B,C,D") = Some (mkRecord (lit "A") (lit "B") (lit "C,D")).
Proof.
  refine (proj2 (C7_greedy_last_field (lit "A,B,C,D") _ _)); vm_compute; lia.
Defined.

(** C8, as stated, fails: the frame [A,B<NUL>,C] holds two separators and
    does not parse, because the second search stops at the NUL byte. *)
Lemma C8_nul_frame_dropped :
  (2 <= separators (lit "A,B" ++ nul :: lit ",C"))%nat /\
  parse (lit "A,B" ++ nul :: lit ",C") = None.
Proof. split; [vm_compute; lia | reflexivity]. Qed.

(** C8, amended: a frame with at least two separators before its first NUL
    byte parses, and the separators are found from the left: the first
    field is the stretch before the first separator, the second the stretch
    between the first and the second separator, the third what follows the
    second separator up to the end.  [A,B,C] parses into [A], [B], [C]. *)
Theorem C8_fields_between_separators (frame : Str) :
  (2 <= separators (c_str frame))%nat ->
  (exists d1 d2 d3,
     parse frame = Some (mkRecord d1 d2 d3) /\
     frame = d1 ++ comma :: d2 ++ comma :: d3 /\
     ~ In comma d1 /\ ~ In comma d2) /\
  parse (lit "A,B,C") = Some (mkRecord (lit "A") (lit "B") (lit "C")).
Proof.
  intros H. split; [|reflexivity].
  destruct (parse_visible frame H) as (d1 & d2 & d3 & Ef & Hn1 & _ & Hn2 & _ & Hp & _).
  exists d1, d2, d3. now repeat split.
Qed.

Lemma C8_fields_between_separators_witness :
  parse (lit "A,B,C") = Some (mkRecord (lit "A") (lit "B") (lit "C")).
Proof.
  refine (proj2 (C8_fields_between_separators (lit "A,B,C") _)). vm_compute. lia.
Defined.

(** C9, as stated, fails: the frame [,<NUL>,] starts and ends with a
    separator, its middle piece holds no separator, and it does not parse:
    the second search stops at the NUL byte. *)
Lemma C9_nul_frame_dropped :
  ~ In comma [nul] /\
  parse (comma :: [nul] ++ [comma]) = None.
Proof.
  split; [|reflexivity].
  intros [H|H]; [discriminate H | exact H].
Qed.

(** C9, amended: empty fields are values, not errors.  With no NUL byte
    before the second separator, a frame that starts with a separator has
    an empty first field, two separators next to each other enclose an
    empty second field, a frame that ends with its second separator has an
    empty third field; in each case the parse succeeds.  [,B,] parses into
    the empty string, [B] and the empty string. *)
Theorem C9_empty_fields (d1 d2 d3 : Str) :
  ~ In comma d1 -> ~ In nul d1 -> ~ In comma d2 -> ~ In nul d2 ->
  parse (comma :: d2 ++ comma :: d3) = Some (mkRecord [] d2 d3) /\
  parse (d1 ++ comma :: comma :: d3) = Some (mkRecord d1 [] d3) /\
  parse (d1 ++ comma :: d2 ++ [comma]) = Some (mkRecord d1 d2 []) /\
  parse [comma; comma] = Some (mkRecord [] [] []) /\
  parse (lit ",B,") = Some (mkRecord [] (lit "B") []).
Proof.
  intros Hn1 Hz1 Hn2 Hz2. repeat split.
  - apply (parse_pieces [] d2 d3); try assumption; intros [].
  - apply (parse_pieces d1 [] d3); try assumption; intros [].
  - now apply (parse_pieces d1 d2 []).
Qed.

Lemma C9_empty_fields_witness :
  parse (comma :: lit "B" ++ comma :: lit "C") = Some (mkRecord [] (lit "B") (lit "C")) /\
  parse (lit "A" ++ comma :: comma :: lit "C") = Some (mkRecord (lit "A") [] (lit "C")) /\
  parse (lit "A" ++ comma :: lit "B" ++ [comma]) = Some (mkRecord (lit "A") (lit "B") []) /\
  parse [comma; comma] = Some (mkRecord [] [] []) /\
  parse (lit ",B,") = Some (mkRecord [] (lit "B") []).
Proof.
  apply (C9_empty_fields (lit "A") (lit "B") (lit "C"));
    vm_compute; intros H; repeat (destruct H as [H|H]; [discriminate H|]); exact H.
Defined.

(* ===================================================================== *)
(** ** Properties of the paint event                                       *)
(* ===================================================================== *)

Import Paint.

Lemma spaced_snoc (d : N) (ts : list N) (t' : N) :
  spaced d ts ->
  (forall ts0 t, ts = ts0 ++ [t] -> (t + d <= t')%N) ->
  spaced d (ts ++ [t']).
Proof.
  induction ts as [|a rest IH]; intros Hs Hlast; [exact I|].
  destruct rest as [|b rest'].
  - simpl. split; [|exact I]. apply (Hlast [] a). reflexivity.
  - destruct Hs as [Hab Hs]. change (((a + d <= b)%N) /\ spaced d ((b :: rest') ++ [t'])).
    split; [assumption|]. apply IH; [assumption|].
    intros ts0 t E. apply (Hlast (a :: ts0) t). simpl. now rewrite E.
Qed.

Section PaintFacts.

Variable DF_KEY_LEFT DF_KEY_RIGHT : Z.
Variable ltoaClrBuff : Z -> Z -> ascii -> Z -> Str.

Local Abbreviation exec := (exec DF_KEY_LEFT DF_KEY_RIGHT ltoaClrBuff).
Local Abbreviation poll := (poll DF_KEY_LEFT DF_KEY_RIGHT ltoaClrBuff).
Local Abbreviation step := (step DF_KEY_LEFT DF_KEY_RIGHT ltoaClrBuff).
Local Abbreviation run := (run DF_KEY_LEFT DF_KEY_RIGHT ltoaClrBuff).

(** A repaint reads the three fields, not the trigger flag. *)
Lemma exec_fields (a b : PaintEvent) (i : EncoderUserIntention) :
  selState a = selState b ->
  encoderReading a = encoderReading b ->
  cursorKey a = cursorKey b ->
  exec a i = exec b i.
Proof. intros H1 H2 H3. unfold Paint.exec. now rewrite H1, H2, H3. Qed.

Lemma poll_fires (now : N) (w : World) :
  triggered (paintEvent w) = true -> (nextEligibleTime w <= now)%N ->
  poll now w = mkWorld (setTriggered false (paintEvent w)) (intent w)
                       (now + interval w)%N (interval w)
                       (lcd w ++ [(now, exec (paintEvent w) (intent w))]).
Proof.
  intros Ht Hn. unfold Paint.poll. rewrite Ht.
  apply N.leb_le in Hn. now rewrite Hn.
Qed.

Lemma poll_idle (now : N) (w : World) :
  triggered (paintEvent w) = false \/ (now < nextEligibleTime w)%N ->
  poll now w = w.
Proof.
  intros [Ht|Hn]; unfold Paint.poll.
  - now rewrite Ht.
  - apply N.leb_gt in Hn. now rewrite Hn, andb_false_r.
Qed.

Lemma poll_cases (now : N) (w : World) :
  (triggered (paintEvent w) = true /\ (nextEligibleTime w <= now)%N) \/
  (triggered (paintEvent w) = false \/ (now < nextEligibleTime w)%N).
Proof.
  destruct (triggered (paintEvent w)); [|right; now left].
  destruct (N.le_gt_cases (nextEligibleTime w) now); [left | right; right]; auto.
Qed.

Lemma snoc_differs {A : Type} (l : list A) (x : A) : l ++ [x] <> l.
Proof.
  intros E. apply (f_equal (@List.length A)) in E.
  rewrite length_app in E. simpl in E. lia.
Qed.

(** Setter calls and the release handler leave the scheduling state and
    the repaint history alone. *)
Lemma step_quiet (e : Event) (w : World) :
  (forall now, e <> Poll now) ->
  lcd (step e w) = lcd w /\
  nextEligibleTime (step e w) = nextEligibleTime w /\
  interval (step e w) = interval w.
Proof.
  destruct e as [s| |now]; intros H; simpl.
  - now destruct s.
  - now repeat split.
  - now contradiction (H now).
Qed.

Lemma step_interval (e : Event) (w : World) : interval (step e w) = interval w.
Proof.
  destruct e as [s| |now]; simpl; try reflexivity.
  unfold Paint.poll. now destruct (_ && _).
Qed.

Lemma run_interval (es : list Event) (w : World) : interval (run es w) = interval w.
Proof.
  revert w. induction es as [|e es IH]; intros w; simpl; [reflexivity|].
  now rewrite IH, step_interval.
Qed.

Lemma gate_inv_step (e : Event) (w : World) : gate_inv w -> gate_inv (step e w).
Proof.
  intros [Hs Hl]. unfold gate_inv. rewrite step_interval.
  destruct e as [s| |now].
  - destruct (step_quiet (Set_ s) w) as (E1 & E2 & _); [discriminate|].
    unfold render_times. rewrite E1, E2. now split.
  - destruct (step_quiet ReleaseSelect w) as (E1 & E2 & _); [discriminate|].
    unfold render_times. rewrite E1, E2. now split.
  - simpl. destruct (poll_cases now w) as [[Ht Hn]|Hidle].
    + rewrite (poll_fires now w Ht Hn). unfold render_times. simpl.
      rewrite map_app. simpl. split.
      * apply spaced_snoc; [assumption|].
        intros ts0 t E. specialize (Hl ts0 t E). lia.
      * intros ts t E. apply app_inj_tail in E. destruct E as [_ <-]. lia.
    + rewrite (poll_idle now w Hidle). now split.
Qed.

Lemma gate_inv_run (es : list Event) (w : World) : gate_inv w -> gate_inv (run es w).
Proof.
  revert w. induction es as [|e es IH]; intros w H; simpl; [assumption|].
  apply IH. now apply gate_inv_step.
Qed.

(** The fields after a run of setter calls are the last values written. *)
Lemma run_setters (calls : list Setter) (w : World) :
  let w' := run (map Set_ calls) w in
  selState (paintEvent w') = lastSelect calls (selState (paintEvent w)) /\
  encoderReading (paintEvent w') = lastReading calls (encoderReading (paintEvent w)) /\
  cursorKey (paintEvent w') = lastCursor calls (cursorKey (paintEvent w)) /\
  triggered (paintEvent w')
    = (triggered (paintEvent w) || negb (Nat.eqb (List.length calls) 0)) /\
  intent w' = intent w /\
  nextEligibleTime w' = nextEligibleTime w /\
  interval w' = interval w /\
  lcd w' = lcd w.
Proof.
  revert w. induction calls as [|s calls IH]; intros w; simpl.
  - now rewrite orb_false_r.
  - specialize (IH (setField s w)). simpl in IH.
    destruct IH as (I1 & I2 & I3 & I4 & I5 & I6 & I7 & I8).
    rewrite I1, I2, I3, I4, I5, I6, I7, I8.
    destruct s; simpl; rewrite orb_true_r; now repeat split.
Qed.

End PaintFacts.

Section GateClaims.

Variable DF_KEY_LEFT DF_KEY_RIGHT : Z.
Variable ltoaClrBuff : Z -> Z -> ascii -> Z -> Str.

Local Abbreviation exec := (exec DF_KEY_LEFT DF_KEY_RIGHT ltoaClrBuff).
Local Abbreviation poll := (poll DF_KEY_LEFT DF_KEY_RIGHT ltoaClrBuff).
Local Abbreviation step := (step DF_KEY_LEFT DF_KEY_RIGHT ltoaClrBuff).
Local Abbreviation run := (run DF_KEY_LEFT DF_KEY_RIGHT ltoaClrBuff).

(** C4: a step repaints only if it is a poll at a time [now] with the event
    triggered and [nextEligibleTime <= now], and such a poll does repaint;
    the repaint clears the trigger and sets the next eligible time to
    [now + interval].  Hence, in every run that starts with an empty repaint
    history, two repaints that follow one another are at least [interval]
    apart. *)
Theorem C4_render_gate :
  (forall (e : Event) (w : World),
      lcd (step e w) <> lcd w ->
      exists now,
        e = Poll now /\
        triggered (paintEvent w) = true /\
        (nextEligibleTime w <= now)%N /\
        lcd (step e w) = lcd w ++ [(now, exec (paintEvent w) (intent w))] /\
        triggered (paintEvent (step e w)) = false /\
        nextEligibleTime (step e w) = (now + interval w)%N) /\
  (forall (now : N) (w : World),
      triggered (paintEvent w) = true ->
      (nextEligibleTime w <= now)%N ->
      lcd (poll now w) = lcd w ++ [(now, exec (paintEvent w) (intent w))]) /\
  (forall (es : list Event) (w : World),
      lcd w = [] ->
      spaced (interval w) (render_times (run es w))).
Proof.
  split; [|split].
  - intros e w Hr. destruct e as [s| |now].
    + exfalso. apply Hr.
      now destruct (step_quiet DF_KEY_LEFT DF_KEY_RIGHT ltoaClrBuff (Set_ s) w).
    + exfalso. apply Hr. reflexivity.
    + exists now. simpl in *.
      destruct (poll_cases now w) as [[Ht Hn]|Hidle].
      * rewrite (poll_fires _ _ _ now w Ht Hn). simpl. now repeat split.
      * exfalso. apply Hr. now rewrite (poll_idle _ _ _ now w Hidle).
  - intros now w Ht Hn. now rewrite (poll_fires _ _ _ now w Ht Hn).
  - intros es w Hempty.
    assert (Hinv : gate_inv w).
    { unfold gate_inv, render_times. rewrite Hempty. simpl. split; [exact I|].
      intros ts t E. now destruct ts. }
    destruct (gate_inv_run DF_KEY_LEFT DF_KEY_RIGHT ltoaClrBuff es w Hinv) as [Hs _].
    now rewrite run_interval in Hs.
Qed.

(** C5, amended: take a poll at [t1], any run of setter calls, and a poll
    at [t2] less than one interval after [t1].  The two polls together add at most
    one repaint to the history.  If the first poll repaints, it shows the
    fields as they stood then, and the second poll is held back.  Otherwise
    the second poll repaints as soon as something is pending and the time
    has come, and that repaint shows, for every field, the last value the
    calls wrote (the prior value for a field no call wrote). *)
Theorem C5_coalescing (w : World) (t1 t2 : N) (calls : list Setter) :
  (t2 < t1 + interval w)%N ->
  let latest :=
    mkPaintEvent (lastSelect calls (selState (paintEvent w)))
                 (lastReading calls (encoderReading (paintEvent w)))
                 (lastCursor calls (cursorKey (paintEvent w)))
                 true in
  exists new,
    lcd (run (Poll t1 :: map Set_ calls ++ [Poll t2]) w) = lcd w ++ new /\
    (List.length new <= 1)%nat /\
    new =
      if triggered (paintEvent w) && (nextEligibleTime w <=? t1)%N
      then [(t1, exec (paintEvent w) (intent w))]
      else if (triggered (paintEvent w) || negb (Nat.eqb (List.length calls) 0))
              && (nextEligibleTime w <=? t2)%N
      then [(t2, exec latest (intent w))]
      else [].
Proof.
  intros Hlt latest.
  assert (Hrun : forall a b x, run (a ++ b) x = run b (run a x)).
  { intros a. induction a as [|e a IH]; intros b x; simpl; [reflexivity|apply IH]. }
  change (Poll t1 :: map Set_ calls ++ [Poll t2])
    with ([Poll t1] ++ map Set_ calls ++ [Poll t2]).
  rewrite !Hrun. simpl.
  set (w1 := poll t1 w).
  pose proof (run_setters DF_KEY_LEFT DF_KEY_RIGHT ltoaClrBuff calls w1) as Hset.
  simpl in Hset. set (w2 := run (map Set_ calls) w1) in *.
  destruct Hset as (S1 & S2 & S3 & S4 & S5 & S6 & S7 & S8).
  destruct (poll_cases t1 w) as [[Ht Hn]|Hidle].
  - (* the first poll repaints; the second is too early *)
    assert (E1 : w1 = _) by (exact (poll_fires _ _ _ t1 w Ht Hn)).
    assert (Hearly : poll t2 w2 = w2).
    { apply poll_idle. right. rewrite S6, E1. simpl. lia. }
    rewrite Hearly, S8, E1. simpl.
    exists [(t1, exec (paintEvent w) (intent w))].
    split; [reflexivity|]. split; [simpl; lia|].
    rewrite Ht. apply N.leb_le in Hn. now rewrite Hn.
  - (* the first poll does nothing *)
    assert (E1 : w1 = w) by (exact (poll_idle _ _ _ t1 w Hidle)).
    rewrite E1 in *.
    assert (Hc1 : triggered (paintEvent w) && (nextEligibleTime w <=? t1)%N = false).
    { destruct Hidle as [Ht|Hn]; [now rewrite Ht|].
      apply N.leb_gt in Hn. now rewrite Hn, andb_false_r. }
    rewrite Hc1.
    destruct (poll_cases t2 w2) as [[Ht2 Hn2]|Hidle2].
    + rewrite (poll_fires _ _ _ t2 w2 Ht2 Hn2). simpl. rewrite S8, S5.
      exists [(t2, exec (paintEvent w2) (intent w))].
      split; [reflexivity|]. split; [simpl; lia|].
      rewrite S4 in Ht2. rewrite S6 in Hn2. apply N.leb_le in Hn2.
      rewrite Ht2, Hn2. simpl. f_equal. f_equal.
      apply exec_fields; assumption.
    + rewrite (poll_idle _ _ _ t2 w2 Hidle2), S8.
      exists []. split; [now rewrite app_nil_r|]. split; [simpl; lia|].
      rewrite S4, S6 in Hidle2.
      destruct Hidle2 as [Ht2|Hn2]; [now rewrite Ht2|].
      apply N.leb_gt in Hn2. now rewrite Hn2, andb_false_r.
Qed.

(** C6: a gate that has just been created and then force-triggered repaints
    at its first poll, whatever the time [t0], the interval and the field
    values are; no setter call is needed.  So does the sketch after
    [setup]. *)
Theorem C6_initial_trigger (ev : PaintEvent) (i : EncoderUserIntention) (d t0 : N) :
  lcd (poll t0 (forceFirstTrigger (create ev i d))) = [(t0, exec ev i)] /\
  lcd (poll t0 setup) = [(t0, exec paintEvent0 CHANGE_VALUE)].
Proof.
  split.
  - rewrite poll_fires; [reflexivity | reflexivity | apply N.le_0_l].
  - rewrite poll_fires; [reflexivity | reflexivity | apply N.le_0_l].
Qed.

End GateClaims.

(** C10: a setter call writes its own field and sets the trigger flag.  The
    other two fields, the next eligible time, the interval, the intention
    and the repaint history stay as they were: no setter repaints. *)
Theorem C10_setter_frame (s : Setter) (w : World) :
  triggered (paintEvent (setField s w)) = true /\
  lcd (setField s w) = lcd w /\
  nextEligibleTime (setField s w) = nextEligibleTime w /\
  interval (setField s w) = interval w /\
  intent (setField s w) = intent w /\
  match s with
  | CurrentReading r =>
      encoderReading (paintEvent (setField s w)) = r /\
      selState (paintEvent (setField s w)) = selState (paintEvent w) /\
      cursorKey (paintEvent (setField s w)) = cursorKey (paintEvent w)
  | SelectChanged st =>
      selState (paintEvent (setField s w)) = st /\
      encoderReading (paintEvent (setField s w)) = encoderReading (paintEvent w) /\
      cursorKey (paintEvent (setField s w)) = cursorKey (paintEvent w)
  | Cursor p =>
      cursorKey (paintEvent (setField s w)) = p /\
      selState (paintEvent (setField s w)) = selState (paintEvent w) /\
      encoderReading (paintEvent (setField s w)) = encoderReading (paintEvent w)
  end.
Proof. destruct s; simpl; now repeat split. Qed.

Lemma C4_render_gate_witness :
  spaced timeOfNextCheck
    (render_times
       (run 3 0 (fun v _ _ _ => print_int v)
            [ Poll 10; Set_ (CurrentReading 251); Poll 4000; Set_ (Cursor 3);
              Poll 250010; ReleaseSelect; Poll 250020; Poll 500010 ]
            setup)).
Proof.
  apply (proj2 (proj2 (C4_render_gate 3 0 (fun v _ _ _ => print_int v)))
           [ Poll 10; Set_ (CurrentReading 251); Poll 4000; Set_ (Cursor 3);
             Poll 250010; ReleaseSelect; Poll 250020; Poll 500010 ]
           setup).
  reflexivity.
Defined.

Example C4_times_sample :
  render_times
    (run 3 0 (fun v _ _ _ => print_int v)
         [ Poll 10; Set_ (CurrentReading 251); Poll 4000; Set_ (Cursor 3);
           Poll 250010; ReleaseSelect; Poll 250020; Poll 500010 ]
         setup)
  = [10; 250010; 500010]%N.
Proof. reflexivity. Qed.

Lemma C5_coalescing_witness :
  exists new,
    lcd (run 3 0 (fun v _ _ _ => print_int v)
             (Poll 249990
                :: map Set_ [CurrentReading 3; Cursor 1; CurrentReading 9;
                             SelectChanged PRESSED; SelectChanged BUTTON_HELD]
                ++ [Poll 250005])
             (poll 3 0 (fun v _ _ _ => print_int v) 0 setup))
    = lcd (poll 3 0 (fun v _ _ _ => print_int v) 0 setup) ++ new /\
    (List.length new <= 1)%nat /\
    new = [(250005%N,
            exec 3 0 (fun v _ _ _ => print_int v)
                 (mkPaintEvent BUTTON_HELD 9 1 true) CHANGE_VALUE)].
Proof.
  refine (C5_coalescing 3 0 (fun v _ _ _ => print_int v)
            (poll 3 0 (fun v _ _ _ => print_int v) 0 setup)
            249990 250005
            [CurrentReading 3; Cursor 1; CurrentReading 9;
             SelectChanged PRESSED; SelectChanged BUTTON_HELD] _).
  vm_compute. reflexivity.
Defined.

(** C5, as stated, fails: after [setup], a poll at 5, a call of
    [currentReading 9] and a poll at 100 (less than one interval later) add
    one repaint, the one of the first poll, and it shows the reading 0 that
    stood before the call, not the last value written. *)
Lemma C5_first_poll_shows_old_values :
  (100 < 5 + interval Paint.setup)%N /\
  ~ coalesced_render_shows_last 3 0 (fun v _ _ _ => print_int v)
      Paint.setup 5 100 [CurrentReading 9].
Proof.
  split; [reflexivity|].
  intros (new & E & _ & H).
  assert (Hn : new = [(5%N, Paint.exec 3 0 (fun v _ _ _ => print_int v)
                              paintEvent0 CHANGE_VALUE)])
    by (symmetry; exact E).
  subst new. specialize (H 5%N _ (or_introl eq_refl)).
  vm_compute in H. discriminate H.
Qed.

Example C5_first_poll_sample :
  lcd (run 3 0 (fun v _ _ _ => print_int v)
           (Poll 5 :: map Set_ [CurrentReading 3; CurrentReading 9] ++ [Poll 100])
           setup)
  = [(5%N, exec 3 0 (fun v _ _ _ => print_int v) paintEvent0 CHANGE_VALUE)].
Proof. reflexivity. Qed.

Example exec_sample :
  exec 3 0 (fun v _ _ _ => print_int v) (mkPaintEvent PRESSED 251 3 true) SCROLL_THROUGH_ITEMS
  = [ lcd_begin 16 2; lcd_setCursor 0 0; lcd_print (lit "encoder: ");
      lcd_print (lit "Scroll"); lcd_setCursor 0 1; lcd_print (lit "251");
      lcd_setCursor 12 1; lcd_print (lit "PRESS");
      lcd_setCursor 6 1; lcd_print (lit "LEFT ") ].
Proof. reflexivity. Qed.

(* ===================================================================== *)
(** ** Further properties of the relay sketch                              *)
(* ===================================================================== *)

(** X1: whenever a frame parses, joining the three fields with two commas
    gives the frame back, and neither the first nor the second field holds
    a comma. *)
Theorem X1_parse_rejoins (frame : Str) (r : ParsedRecord) :
  parse frame = Some r ->
  frame = data1 r ++ comma :: data2 r ++ comma :: data3 r /\
  ~ In comma (data1 r) /\ ~ In comma (data2 r).
Proof. apply parse_fields. Qed.

Lemma X1_parse_rejoins_witness :
  lit "7,,x,y" = lit "7" ++ comma :: [] ++ comma :: lit "x,y" /\
  ~ In comma (lit "7") /\ ~ In comma [].
Proof.
  exact (X1_parse_rejoins (lit "7,,x,y") (mkRecord (lit "7") [] (lit "x,y")) eq_refl).
Defined.

(** X2: the second search alone decides whether a frame is forwarded.  When
    the first search fails, the second starts over at index 0 and fails
    too; when both succeed the second separator lies behind the first.  A
    frame parses exactly when the second search succeeds, and exactly when
    it holds two separators or more before its first NUL byte. *)
Theorem X2_second_search_decides (frame : Str) :
  let separatorIndex1 := indexOf frame comma 0 in
  let separatorIndex2 := indexOf frame comma (separatorIndex1 + 1) in
  (separatorIndex1 = -1 -> separatorIndex2 = -1) /\
  (separatorIndex2 <> -1 -> 0 <= separatorIndex1 < separatorIndex2) /\
  (parse frame <> None <-> separatorIndex2 <> -1) /\
  (parse frame <> None <-> (2 <= separators (c_str frame))%nat).
Proof.
  cbv zeta.
  assert (Hp : parse frame
               = if negb (indexOf frame comma 0 =? -1)
                    && negb (indexOf frame comma (indexOf frame comma 0 + 1) =? -1)
                 then Some (mkRecord
                              (substring frame 0 (indexOf frame comma 0))
                              (substring frame (indexOf frame comma 0 + 1)
                                 (indexOf frame comma (indexOf frame comma 0 + 1)))
                              (substring_from frame
                                 (indexOf frame comma (indexOf frame comma 0 + 1) + 1)))
                 else None) by reflexivity.
  pose proof (parse_iff_visible frame) as Hv.
  assert (H1 : indexOf frame comma 0 = -1 ->
               indexOf frame comma (indexOf frame comma 0 + 1) = -1).
  { intros E. rewrite E. exact E. }
  pose proof (indexOf_range comma frame 0) as R1.
  pose proof (indexOf_range comma frame (indexOf frame comma 0 + 1)) as R2.
  split; [exact H1|]. split; [intros; lia|]. split; [|exact Hv].
  rewrite Hp.
  destruct (Z.eqb_spec (indexOf frame comma 0) (-1)) as [E1|E1],
           (Z.eqb_spec (indexOf frame comma (indexOf frame comma 0 + 1)) (-1)) as [E2|E2];
    simpl; split; intros H; try congruence; try discriminate; try (now apply H1).
  exfalso. apply E2. now apply H1.
Qed.

Lemma X2_second_search_decides_witness :
  indexOf (lit "no separator") comma (indexOf (lit "no separator") comma 0 + 1) = -1.
Proof.
  apply (proj1 (X2_second_search_decides (lit "no separator"))). reflexivity.
Defined.

Example nul_hides_separators :
  c_str (lit "A,B" ++ nul :: lit ",C") = lit "A,B" /\
  indexOf (lit "A,B" ++ nul :: lit ",C") comma 2 = -1 /\
  parse (lit "A,B" ++ nul :: lit ",C") = None.
Proof. repeat split; reflexivity. Qed.

Lemma bytes_app (a b : list call) : bytes (a ++ b) = bytes a ++ bytes b.
Proof. apply flat_map_app. Qed.

Lemma loop_cases (packetSize : Z) (payload : Str) (w : Sinks) :
  loop packetSize payload w = w \/
  exists r, packetSize <> 0 /\ parse payload = Some r /\
            loop packetSize payload w
            = mkSinks (serial w ++ report r) (bt w ++ forward r).
Proof.
  unfold loop. destruct (Z.eqb_spec packetSize 0) as [E|E]; [now left|].
  rewrite read_packet_all. destruct (parse payload) as [r|] eqn:Hp; [|now left].
  right. now exists r.
Qed.

Lemma comma_free_run (packets : list (Z * Str)) (w : Sinks) :
  ~ In comma (bytes (bt w)) ->
  ~ In comma (bytes (bt (Relay.run packets w))).
Proof.
  revert w. induction packets as [|[packetSize payload] rest IH]; intros w Hw; simpl;
    [assumption|].
  apply IH.
  destruct (loop_cases packetSize payload w) as [->|(r & _ & Hp & ->)]; [assumption|].
  destruct (parse_fields payload r Hp) as (_ & Hn1 & Hn2).
  simpl. rewrite bytes_app. intros Hin. apply in_app_or in Hin.
  destruct Hin as [Hin|Hin]; [now apply Hw|].
  simpl in Hin.
  apply in_app_or in Hin. destruct Hin as [Hin|Hin]; [now apply Hn1|].
  simpl in Hin. destruct Hin as [Hin|Hin]; [discriminate Hin|].
  apply in_app_or in Hin. destruct Hin as [Hin|Hin]; [now apply Hn2|].
  cbv in Hin.
  repeat (destruct Hin as [Hin|Hin]; [discriminate Hin|]). exact Hin.
Qed.

(** X3: no comma ever reaches the Bluetooth link.  If the bytes sent so far
    hold none, they hold none after any stream of packets, whatever the
    packets contain. *)
Theorem X3_comma_never_sent (packets : list (Z * Str)) (w : Sinks) :
  ~ In comma (bytes (bt w)) ->
  ~ In comma (bytes (bt (Relay.run packets w))).
Proof. apply comma_free_run. Qed.

Lemma X3_comma_never_sent_witness :
  ~ In comma (bytes (bt (Relay.run [(5, lit "a,b,c"); (0, lit "x,y,z"); (9, lit "1,2,3,4,5")]
                                   start))).
Proof.
  apply (X3_comma_never_sent [(5, lit "a,b,c"); (0, lit "x,y,z"); (9, lit "1,2,3,4,5")] start).
  simpl. intros H. exact H.
Defined.

Lemma loop_accepted (packetSize : Z) (payload : Str) (w : Sinks) :
  (RelaySetup.accepted (packetSize, payload) = true /\
   exists r, loop packetSize payload w
             = mkSinks (serial w ++ report r) (bt w ++ forward r)) \/
  (RelaySetup.accepted (packetSize, payload) = false /\ loop packetSize payload w = w).
Proof.
  unfold RelaySetup.accepted, loop. cbn [fst snd].
  destruct (Z.eqb_spec packetSize 0) as [E|E]; cbn [negb andb]; [now right|].
  rewrite read_packet_all.
  pose proof (parse_iff_visible payload) as Hv.
  destruct (Nat.leb_spec 2 (separators (c_str payload))) as [Hle|Hlt].
  - left. split; [reflexivity|].
    destruct (parse payload) as [r|]; [now exists r|].
    exfalso. now apply (proj2 Hv Hle).
  - right. split; [reflexivity|].
    destruct (parse payload) as [r|]; [|reflexivity].
    exfalso. assert (Hs : Some r <> None) by discriminate.
    apply Hv in Hs. lia.
Qed.

Lemma lines_app (a b : list call) :
  RelaySetup.lines (a ++ b) = (RelaySetup.lines a + RelaySetup.lines b)%nat.
Proof. unfold RelaySetup.lines. now rewrite filter_app, length_app. Qed.

(** X4: a stream of packets adds one Bluetooth line (six calls, the last
    one a [println]) and three serial lines for every packet of non-zero
    size with at least two separators before its first NUL byte, and
    nothing for any other packet. *)
Theorem X4_one_line_per_accepted_packet (packets : list (Z * Str)) (w : Sinks) :
  let n := List.length (filter RelaySetup.accepted packets) in
  RelaySetup.lines (bt (Relay.run packets w)) = (RelaySetup.lines (bt w) + n)%nat /\
  List.length (bt (Relay.run packets w)) = (List.length (bt w) + 6 * n)%nat /\
  RelaySetup.lines (serial (Relay.run packets w))
    = (RelaySetup.lines (serial w) + 3 * n)%nat /\
  List.length (serial (Relay.run packets w)) = (List.length (serial w) + 3 * n)%nat.
Proof.
  revert w. induction packets as [|[packetSize payload] rest IH]; intros w.
  - simpl. repeat split; lia.
  - cbn [Relay.run filter].
    specialize (IH (loop packetSize payload w)). cbv zeta in IH.
    destruct IH as (I1 & I2 & I3 & I4).
    destruct (loop_accepted packetSize payload w) as [[Ha (r & Hl)]|[Ha Hl]];
      rewrite Ha; rewrite Hl in *; cbv zeta.
    + rewrite I1, I2, I3, I4. simpl bt. simpl serial.
      rewrite !lines_app, !length_app.
      change (RelaySetup.lines (forward r)) with 1%nat.
      change (RelaySetup.lines (report r)) with 3%nat.
      simpl. repeat split; lia.
    + rewrite I1, I2, I3, I4. repeat split; lia.
Qed.

Lemma loop_from_start (packetSize : Z) (payload : Str) (w : Sinks) :
  serial (loop packetSize payload w) = serial w ++ serial (loop packetSize payload start) /\
  bt (loop packetSize payload w) = bt w ++ bt (loop packetSize payload start).
Proof.
  destruct (loop_cases packetSize payload w) as [Hw|(r & Hp & Hr & Hw)].
  - assert (Hs : loop packetSize payload start = start).
    { revert Hw. unfold loop. destruct (packetSize =? 0); [reflexivity|].
      destruct (parse (read_packet payload)); [|reflexivity].
      intros E. apply (f_equal bt) in E. simpl in E.
      exfalso. apply (f_equal (@List.length call)) in E.
      rewrite length_app in E. simpl in E. lia. }
    rewrite Hw, Hs. simpl. now rewrite !app_nil_r.
  - destruct (loop_cases packetSize payload start) as [Hs|(r' & _ & Hr' & Hs)].
    + revert Hs. unfold loop. destruct (Z.eqb_spec packetSize 0) as [E|_]; [contradiction|].
      rewrite read_packet_all, Hr. intros E. apply (f_equal bt) in E. discriminate E.
    + rewrite Hr in Hr'. injection Hr' as <-. rewrite Hw, Hs. simpl. now split.
Qed.

Lemma run_from_start (packets : list (Z * Str)) (w : Sinks) :
  serial (Relay.run packets w) = serial w ++ serial (Relay.run packets start) /\
  bt (Relay.run packets w) = bt w ++ bt (Relay.run packets start).
Proof.
  revert w. induction packets as [|[packetSize payload] rest IH]; intros w; simpl.
  - now rewrite !app_nil_r.
  - destruct (IH (loop packetSize payload w)) as [Is Ib].
    destruct (IH (loop packetSize payload start)) as [Js Jb].
    destruct (loop_from_start packetSize payload w) as [Ls Lb].
    rewrite Is, Ib, Js, Jb, Ls, Lb. now rewrite <- !app_assoc.
Qed.

(** X5: the relay keeps nothing between packets.  What a stream adds to the
    two devices does not depend on what was written before, and the output
    of two streams one after the other is the output of the first followed
    by the output of the second. *)
Theorem X5_no_state_between_packets (first second : list (Z * Str)) (w : Sinks) :
  bt (Relay.run first w) = bt w ++ bt (Relay.run first start) /\
  serial (Relay.run first w) = serial w ++ serial (Relay.run first start) /\
  bt (Relay.run (first ++ second) start)
    = bt (Relay.run first start) ++ bt (Relay.run second start) /\
  serial (Relay.run (first ++ second) start)
    = serial (Relay.run first start) ++ serial (Relay.run second start).
Proof.
  assert (Happ : forall a b x, Relay.run (a ++ b) x = Relay.run b (Relay.run a x)).
  { intros a. induction a as [|[p pl] a IH]; intros b x; simpl; [reflexivity|apply IH]. }
  destruct (run_from_start first w) as [Hs Hb].
  destruct (run_from_start second (Relay.run first start)) as [Hs2 Hb2].
  rewrite Happ. now repeat split.
Qed.

(** X6: the Bluetooth line for an accepted frame is as long as its first
    two fields plus six bytes, so it never exceeds the frame by more than
    four bytes. *)
Theorem X6_bluetooth_line_length (packetSize : Z) (frame : Str) (r : ParsedRecord) :
  packetSize <> 0 ->
  parse frame = Some r ->
  let sent := bytes (bt (loop packetSize frame start)) in
  List.length sent = (List.length (data1 r) + List.length (data2 r) + 6)%nat /\
  (List.length sent + List.length (data3 r) = List.length frame + 4)%nat.
Proof.
  intros Hp Hr. cbv zeta.
  destruct (parse_fields frame r Hr) as (Hf & _ & _).
  destruct (loop_cases packetSize frame start) as [Hl|(r' & _ & Hr' & Hl)].
  - exfalso. revert Hl. unfold loop.
    destruct (Z.eqb_spec packetSize 0) as [E|_]; [contradiction|].
    rewrite read_packet_all, Hr. intros E. apply (f_equal bt) in E. discriminate E.
  - rewrite Hr in Hr'. injection Hr' as <-. rewrite Hl. simpl.
    apply (f_equal (@List.length ascii)) in Hf.
    rewrite length_app in Hf. simpl in Hf. rewrite length_app in Hf. simpl in Hf.
    rewrite !length_app. simpl. rewrite !length_app. simpl. lia.
Qed.

Lemma X6_bluetooth_line_length_witness :
  List.length (bytes (bt (loop 7 (lit "12,345,6789") start))) = 11%nat.
Proof.
  exact (proj1 (X6_bluetooth_line_length 7 (lit "12,345,6789")
                  (mkRecord (lit "12") (lit "345") (lit "6789"))
                  ltac:(lia) eq_refl)).
Defined.

Lemma await_radio_failures (n : nat) (rest : list bool) (w : Sinks) (waited : Z) :
  RelaySetup.await_radio (repeat false n ++ true :: rest) w waited
  = Some (mkSinks (serial w ++ repeat (Println (lit ".")) n) (bt w),
          waited + 500 * Z.of_nat n).
Proof.
  revert w waited. induction n as [|n IH]; intros w waited.
  - replace (waited + 500 * Z.of_nat 0) with waited by lia.
    simpl. rewrite app_nil_r. now destruct w.
  - replace (waited + 500 * Z.of_nat (S n)) with (waited + 500 + 500 * Z.of_nat n) by lia.
    cbn [repeat app RelaySetup.await_radio]. rewrite IH. simpl.
    now rewrite <- app_assoc.
Qed.

Lemma await_radio_never (n : nat) (w : Sinks) (waited : Z) :
  RelaySetup.await_radio (repeat false n) w waited = None.
Proof.
  revert w waited. induction n as [|n IH]; intros w waited; simpl; [reflexivity|apply IH].
Qed.

Lemma setup_after_failures (n : nat) (rest : list bool) :
  RelaySetup.setup (repeat false n ++ true :: rest)
  = Some (mkSinks (Println (lit "LoRa Receiver")
                     :: repeat (Println (lit ".")) n
                     ++ [Println (lit "LoRa Initializing OK!")])
                  [],
          500 * Z.of_nat n).
Proof.
  unfold RelaySetup.setup. rewrite await_radio_failures. simpl. reflexivity.
Qed.

(** X7: [setup] of the relay returns as soon as the radio starts.  After
    [n] failed attempts it has printed the banner, [n] dot lines and the
    closing line on the serial monitor, has waited [500 * n] ms and has sent
    nothing over Bluetooth; while every attempt fails it does not return. *)
Theorem X7_setup_transcript (n : nat) (rest : list bool) :
  RelaySetup.setup (repeat false n ++ true :: rest)
  = Some (mkSinks (Println (lit "LoRa Receiver")
                     :: repeat (Println (lit ".")) n
                     ++ [Println (lit "LoRa Initializing OK!")])
                  [],
          500 * Z.of_nat n) /\
  RelaySetup.setup (repeat false n) = None.
Proof.
  split; [apply setup_after_failures|].
  unfold RelaySetup.setup. now rewrite await_radio_never.
Qed.

(** X8: the whole relay program.  Once the radio has started after [n]
    failed attempts, the Bluetooth link carries what the packets alone
    produce, with no trace of the start-up, and the serial monitor shows
    the start-up lines followed by the reports of the packets. *)
Theorem X8_sketch_output (n : nat) (rest : list bool) (packets : list (Z * Str)) :
  exists w,
    RelaySetup.sketch (repeat false n ++ true :: rest) packets = Some w /\
    bt w = bt (Relay.run packets start) /\
    serial w = (Println (lit "LoRa Receiver")
                  :: repeat (Println (lit ".")) n
                  ++ [Println (lit "LoRa Initializing OK!")])
               ++ serial (Relay.run packets start) /\
    ~ In comma (bytes (bt w)).
Proof.
  unfold RelaySetup.sketch.
  rewrite setup_after_failures.
  eexists. split; [reflexivity|].
  destruct (run_from_start packets
              (mkSinks (Println (lit "LoRa Receiver")
                          :: repeat (Println (lit ".")) n
                          ++ [Println (lit "LoRa Initializing OK!")]) []))
    as [Hs Hb].
  split; [exact Hb|]. split; [exact Hs|].
  apply comma_free_run. simpl. intros H. exact H.
Qed.

Example setup_two_failures :
  RelaySetup.setup [false; false; true]
  = Some (mkSinks [ Println (lit "LoRa Receiver"); Println (lit "."); Println (lit ".");
                    Println (lit "LoRa Initializing OK!") ] [],
          1000).
Proof. reflexivity. Qed.

(* ===================================================================== *)
(** ** Further properties of the encoder sketch                            *)
(* ===================================================================== *)

Import Handlers.

(** X9: setter calls that address different members of the event can be
    swapped without changing the event. *)
Theorem X9_setters_commute (a b : Setter) (ev : PaintEvent) :
  same_field a b = false ->
  apply_setter a (apply_setter b ev) = apply_setter b (apply_setter a ev).
Proof. destruct a, b; simpl; intros H; try discriminate H; reflexivity. Qed.

Lemma X9_setters_commute_witness :
  apply_setter (CurrentReading 7) (apply_setter (Cursor 3) paintEvent0)
  = apply_setter (Cursor 3) (apply_setter (CurrentReading 7) paintEvent0).
Proof. apply (X9_setters_commute (CurrentReading 7) (Cursor 3) paintEvent0). reflexivity. Defined.

(** X10: of two setter calls that address the same member only the second
    one counts: the event is as if the first call had not been made. *)
Theorem X10_last_setter_wins (a b : Setter) (ev : PaintEvent) :
  same_field a b = true ->
  apply_setter b (apply_setter a ev) = apply_setter b ev.
Proof. destruct a, b; simpl; intros H; try discriminate H; reflexivity. Qed.

Lemma X10_last_setter_wins_witness :
  apply_setter (CurrentReading 9) (apply_setter (CurrentReading 7) paintEvent0)
  = apply_setter (CurrentReading 9) paintEvent0.
Proof.
  apply (X10_last_setter_wins (CurrentReading 7) (CurrentReading 9) paintEvent0). reflexivity.
Defined.


Example intent_after_setup :
  map (fun n => intent (Nat.iter n selectReleased Paint.setup)) [0; 1; 2; 3]%nat
  = [CHANGE_VALUE; SCROLL_THROUGH_ITEMS; SCROLL_THROUGH_SIDEWAYS; CHANGE_VALUE].
Proof. reflexivity. Qed.

Section DisplayFacts.

Variable DF_KEY_LEFT DF_KEY_RIGHT : Z.
Variable ltoaClrBuff : Z -> Z -> ascii -> Z -> Str.
Variable pinid_of_int : Z -> Z.

Local Abbreviation exec := (exec DF_KEY_LEFT DF_KEY_RIGHT ltoaClrBuff).

(** What [exec] prints for the intention, the button and the cursor key. *)
Lemma exec_shape (ev : PaintEvent) (i : EncoderUserIntention) :
  exists title button key,
    exec ev i
    = [ lcd_begin 16 2; lcd_setCursor 0 0; lcd_print (lit "encoder: "); lcd_print title;
        lcd_setCursor 0 1; lcd_print (ltoaClrBuff (encoderReading ev) 4 "0"%char 10);
        lcd_setCursor 12 1; lcd_print button;
        lcd_setCursor 6 1; lcd_print key ] /\
    title = match i with
            | CHANGE_VALUE => lit "Chg Val"
            | SCROLL_THROUGH_ITEMS => lit "Scroll"
            | SCROLL_THROUGH_SIDEWAYS => lit "ScSide"
            end /\
    button = match selState ev with
             | NOT_PRESSED => lit "     "
             | PRESSED => lit "PRESS"
             | BUTTON_HELD => lit "HELD "
             end /\
    key = if cursorKey ev =? DF_KEY_RIGHT then lit "RIGHT"
          else if cursorKey ev =? DF_KEY_LEFT then lit "LEFT "
          else lit "     ".
Proof.
  do 3 eexists. split; [reflexivity|].
  split; [now destruct i|]. split; [now destruct (selState ev)|].
  now destruct (cursorKey ev =? DF_KEY_RIGHT), (cursorKey ev =? DF_KEY_LEFT).
Qed.

(** X12: a repaint tells the states apart.  Two repaints with the same
    display calls come from the same intention and the same button state,
    print the same number text, and agree on whether the cursor key is the
    right key. *)
Theorem X12_exec_faithful (a b : PaintEvent) (i j : EncoderUserIntention) :
  exec a i = exec b j ->
  i = j /\
  selState a = selState b /\
  ltoaClrBuff (encoderReading a) 4 "0"%char 10 = ltoaClrBuff (encoderReading b) 4 "0"%char 10 /\
  (cursorKey a = DF_KEY_RIGHT <-> cursorKey b = DF_KEY_RIGHT).
Proof.
  intros H.
  destruct (exec_shape a i) as (ta & ba & ka & Ea & Hta & Hba & Hka).
  destruct (exec_shape b j) as (tb & bb & kb & Eb & Htb & Hbb & Hkb).
  subst ta tb ba bb ka kb.
  rewrite Ea, Eb in H. injection H as Ht Hn Hb Hk.
  split; [destruct i, j; try reflexivity; discriminate Ht|].
  split; [destruct (selState a), (selState b); try reflexivity; discriminate Hb|].
  split; [assumption|].
  destruct (Z.eqb_spec (cursorKey a) DF_KEY_RIGHT) as [Ra|Ra],
           (Z.eqb_spec (cursorKey b) DF_KEY_RIGHT) as [Rb|Rb];
    try (split; intros; assumption); try (split; intros; contradiction).
  - exfalso. destruct (cursorKey b =? DF_KEY_LEFT); discriminate Hk.
  - exfalso. destruct (cursorKey a =? DF_KEY_LEFT); discriminate Hk.
Qed.

(** X13: every repaint issues the same ten display calls at the same
    positions; only the four texts differ.  The first row holds at most 16
    characters, and the button and cursor texts are always five characters
    wide. *)
Theorem X13_exec_layout (ev : PaintEvent) (i : EncoderUserIntention) :
  exists title button key,
    exec ev i
    = [ lcd_begin 16 2; lcd_setCursor 0 0; lcd_print (lit "encoder: "); lcd_print title;
        lcd_setCursor 0 1; lcd_print (ltoaClrBuff (encoderReading ev) 4 "0"%char 10);
        lcd_setCursor 12 1; lcd_print button;
        lcd_setCursor 6 1; lcd_print key ] /\
    (List.length (lit "encoder: ") + List.length title <= 16)%nat /\
    List.length button = 5%nat /\
    List.length key = 5%nat.
Proof.
  destruct (exec_shape ev i) as (t & b & k & E & Ht & Hb & Hk).
  exists t, b, k. split; [assumption|]. subst t b k.
  split; [destruct i; simpl; lia|].
  split; [now destruct (selState ev)|].
  now destruct (cursorKey ev =? DF_KEY_RIGHT), (cursorKey ev =? DF_KEY_LEFT).
Qed.

Local Abbreviation onReleased := (onReleased pinid_of_int).
Local Abbreviation handle := (handle pinid_of_int).
Local Abbreviation handle_all := (handle_all pinid_of_int).

(** X14: the cursor indicator.  While the left key is pressed (and is not
    also the right key) a repaint prints [LEFT ], while the right key is
    pressed it prints [RIGHT].  After any key is released, whichever it
    was, the indicator is blank, provided the released marker, [-1] as a
    pin, is neither of the two keys. *)
Theorem X14_cursor_indicator (pin : Z) (held : bool) (w : World) (i : EncoderUserIntention) :
  DF_KEY_LEFT <> DF_KEY_RIGHT ->
  pinid_of_int (-1) <> DF_KEY_LEFT ->
  pinid_of_int (-1) <> DF_KEY_RIGHT ->
  last (exec (paintEvent (onPressed DF_KEY_LEFT held w)) i) (lcd_begin 0 0)
    = lcd_print (lit "LEFT ") /\
  last (exec (paintEvent (onPressed DF_KEY_RIGHT held w)) i) (lcd_begin 0 0)
    = lcd_print (lit "RIGHT") /\
  last (exec (paintEvent (onReleased pin held w)) i) (lcd_begin 0 0)
    = lcd_print (lit "     ") /\
  onReleased pin held (onPressed pin held w) = onReleased pin held w.
Proof.
  intros Hlr Hl Hr. unfold Paint.exec, onPressed, Handlers.onReleased. simpl.
  rewrite !Z.eqb_refl.
  destruct (Z.eqb_spec DF_KEY_LEFT DF_KEY_RIGHT) as [E|_]; [contradiction|].
  destruct (Z.eqb_spec (pinid_of_int (-1)) DF_KEY_LEFT) as [E|_]; [contradiction|].
  destruct (Z.eqb_spec (pinid_of_int (-1)) DF_KEY_RIGHT) as [E|_]; [contradiction|].
  now repeat split.
Qed.

(** X15: the button indicator.  A repaint after the select button went down
    prints [HELD ] when the button is reported as held and [PRESS]
    otherwise; after the release it prints blanks. *)
Theorem X15_button_indicator (held : bool) (w : World) (i : EncoderUserIntention) :
  nth 7 (exec (paintEvent (selectPressed held w)) i) (lcd_begin 0 0)
    = lcd_print (if held then lit "HELD " else lit "PRESS") /\
  nth 7 (exec (paintEvent (selectReleased (selectPressed held w))) i) (lcd_begin 0 0)
    = lcd_print (lit "     ").
Proof. now destruct held. Qed.

Lemma handle_quiet (i : Input) (w : World) :
  lcd (handle i w) = lcd w /\
  nextEligibleTime (handle i w) = nextEligibleTime w /\
  interval (handle i w) = interval w /\
  triggered (paintEvent (handle i w)) = true.
Proof. destruct i; simpl; now repeat split. Qed.

(** X16: no callback of the sketch paints.  Whatever the input library
    reports, in any order, the repaint history, the next eligible time and
    the interval stay as they were, and after at least one report the event
    is marked as triggered. *)
Theorem X16_callbacks_only_mark (inputs : list Input) (w : World) :
  lcd (handle_all inputs w) = lcd w /\
  nextEligibleTime (handle_all inputs w) = nextEligibleTime w /\
  interval (handle_all inputs w) = interval w /\
  (inputs <> [] -> triggered (paintEvent (handle_all inputs w)) = true).
Proof.
  unfold Handlers.handle_all.
  assert (H : forall ins x,
             lcd (fold_left (fun w i => handle i w) ins x) = lcd x /\
             nextEligibleTime (fold_left (fun w i => handle i w) ins x) = nextEligibleTime x /\
             interval (fold_left (fun w i => handle i w) ins x) = interval x /\
             (triggered (paintEvent x) = true ->
              triggered (paintEvent (fold_left (fun w i => handle i w) ins x)) = true)).
  { intros ins. induction ins as [|i ins IH]; intros x; simpl; [now repeat split|].
    destruct (IH (handle i x)) as (I1 & I2 & I3 & I4).
    destruct (handle_quiet i x) as (Q1 & Q2 & Q3 & Q4).
    rewrite I1, I2, I3, Q1, Q2, Q3. repeat split. intros _. now apply I4. }
  destruct inputs as [|i ins].
  - simpl. repeat split. intros Hne. now contradiction Hne.
  - simpl. destruct (H ins (handle i w)) as (I1 & I2 & I3 & I4).
    destruct (handle_quiet i w) as (Q1 & Q2 & Q3 & Q4).
    rewrite I1, I2, I3, Q1, Q2, Q3. repeat split. intros _. now apply I4.
Qed.

End DisplayFacts.

Lemma X8_sketch_output_witness :
  exists w,
    RelaySetup.sketch (repeat false 2 ++ true :: [false]) [(5, lit "a,b,c"); (3, lit "bad")]
    = Some w /\
    bt w = bt (Relay.run [(5, lit "a,b,c"); (3, lit "bad")] start) /\
    serial w = (Println (lit "LoRa Receiver")
                  :: repeat (Println (lit ".")) 2
                  ++ [Println (lit "LoRa Initializing OK!")])
               ++ serial (Relay.run [(5, lit "a,b,c"); (3, lit "bad")] start) /\
    ~ In comma (bytes (bt w)).
Proof. exact (X8_sketch_output 2 [false] [(5, lit "a,b,c"); (3, lit "bad")]). Defined.


Lemma X12_exec_faithful_witness :
  SCROLL_THROUGH_ITEMS = SCROLL_THROUGH_ITEMS /\
  PRESSED = PRESSED /\
  print_int 251 = print_int 251 /\
  (3 = 0 <-> 3 = 0).
Proof.
  exact (X12_exec_faithful 3 0 (fun v _ _ _ => print_int v)
           (mkPaintEvent PRESSED 251 3 true) (mkPaintEvent PRESSED 251 3 false)
           SCROLL_THROUGH_ITEMS SCROLL_THROUGH_ITEMS eq_refl).
Defined.

Lemma X14_cursor_indicator_witness :
  last (Paint.exec 3 0 (fun v _ _ _ => print_int v)
          (paintEvent (onReleased (fun z => z mod 256) 3 false
                         (onPressed 3 false Paint.setup)))
          CHANGE_VALUE)
       (lcd_begin 0 0)
  = lcd_print (lit "     ").
Proof.
  refine (proj1 (proj2 (proj2
            (X14_cursor_indicator 3 0 (fun v _ _ _ => print_int v) (fun z => z mod 256)
               3 false (onPressed 3 false Paint.setup) CHANGE_VALUE _ _ _)))).
  - lia.
  - vm_compute. discriminate.
  - vm_compute. discriminate.
Defined.

Lemma X16_callbacks_only_mark_witness :
  triggered
    (paintEvent
       (handle_all (fun z => z mod 256)
          [EncoderTurned 12; KeyPressed 3 false; SelectPressed true; KeyReleased 3 false;
           SelectLifted]
          (create paintEvent0 CHANGE_VALUE timeOfNextCheck)))
  = true.
Proof.
  refine (proj2 (proj2 (proj2
            (X16_callbacks_only_mark (fun z => z mod 256)
               [EncoderTurned 12; KeyPressed 3 false; SelectPressed true;
                KeyReleased 3 false; SelectLifted]
               (create paintEvent0 CHANGE_VALUE timeOfNextCheck)))) _).
  discriminate.
Defined.
